(** * A shallow embedding of the JSON-schema reference resolver (main.py)

    The development follows the Python source function by function.
    Python objects that the program mutates in place (dicts and lists loaded
    from JSON files) live in an explicit store, so that the sharing created by
    [dict.update] and the defensive [copy.deepcopy] calls are visible.
    Exceptions are results of type [result]; the recursion limit of the
    interpreter is the [rl] argument of the recursive walkers. *)

From Stdlib Require Import ZArith QArith String Ascii List Bool Lia.
From stdpp Require Import base list strings.

Open Scope string_scope.
Open Scope list_scope.

#[local] Set Warnings "-register-all".

(** ** Exceptions and results *)

(** The exception classes raised on the modelled paths.  [OutsideModel] is not
    a Python exception: it marks a run that leaves what the store below
    represents (a dict that would receive a key that is not a string, or a
    reference to an object the store does not hold; no operation below
    produces the latter). *)
Inductive exn :=
  | TypeError | ValueError | KeyError | IndexError | AttributeError
  | FileNotFoundError | UnboundLocalError | RecursionError | OutsideModel.

Inductive result (A : Type) :=
  | Ok (a : A)
  | Raise (e : exn).
Arguments Ok {A} a.
Arguments Raise {A} e.

Global Instance result_ret : MRet result := fun _ a => Ok a.
Global Instance result_bind : MBind result := fun _ _ k r =>
  match r with
  | Ok a => k a
  | Raise e => Raise e
  end.

(** ** Strings

    A Python [str] is modelled as a [string] of code points below 256. *)
Module PyStr.

Definition code (c : ascii) : nat := nat_of_ascii c.

(** [str.lower] on one code point: A-Z, and the upper-case letters of the
    Latin-1 block (all of 192..222 but the multiplication sign 215). *)
Definition lower_char (c : ascii) : ascii :=
  let n := code c in
  if ((65 <=? n) && (n <=? 90))%nat then ascii_of_nat (n + 32)
  else if ((192 <=? n) && (n <=? 222) && negb (n =? 215))%nat
       then ascii_of_nat (n + 32)
  else c.

Fixpoint lower (s : string) : string :=
  match s with
  | EmptyString => EmptyString
  | String c s' => String (lower_char c) (lower s')
  end.

(** White space as the regular expression class [\s] sees it in a [str]
    pattern: the characters for which [str.isspace] holds. *)
Definition is_space (c : ascii) : bool :=
  let n := code c in
  (((9 <=? n) && (n <=? 13)) || ((28 <=? n) && (n <=? 32))
   || (n =? 133) || (n =? 160))%nat.

Definition is_digit (c : ascii) : bool :=
  let n := code c in ((48 <=? n) && (n <=? 57))%nat.

Definition is_ascii_alpha (c : ascii) : bool :=
  let n := code c in
  (((65 <=? n) && (n <=? 90)) || ((97 <=? n) && (n <=? 122)))%nat.

(** [re.search(r"[^a-zA-Z0-9\s]", c)] on a one-character string. *)
Definition is_special (c : ascii) : bool :=
  negb (is_ascii_alpha c || is_digit c || is_space c).

Fixpoint last_char (s : string) : option ascii :=
  match s with
  | EmptyString => None
  | String c EmptyString => Some c
  | String _ s' => last_char s'
  end.

Fixpoint starts_with (p s : string) : bool :=
  match p, s with
  | EmptyString, _ => true
  | String a p', String b s' => Ascii.eqb a b && starts_with p' s'
  | String _ _, EmptyString => false
  end.

(** [needle in s] *)
Fixpoint contains (needle s : string) : bool :=
  starts_with needle s ||
  match s with
  | EmptyString => false
  | String _ s' => contains needle s'
  end.

Fixpoint mem_char (c : ascii) (s : string) : bool :=
  match s with
  | EmptyString => false
  | String a s' => Ascii.eqb a c || mem_char c s'
  end.

(** [s[n:]] for a non-negative [n] *)
Fixpoint drop (n : nat) (s : string) : string :=
  match n, s with
  | O, _ => s
  | S n', String _ s' => drop n' s'
  | S _, EmptyString => EmptyString
  end.

(** [s.split(sep)] for a one-character separator: never the empty list. *)
Fixpoint split (sep : ascii) (s : string) : list string :=
  match s with
  | EmptyString => [EmptyString]
  | String c s' =>
      if Ascii.eqb c sep then EmptyString :: split sep s'
      else match split sep s' with
           | [] => [String c EmptyString]
           | w :: ws => String c w :: ws
           end
  end.

(** The blanks [int] skips at both ends of its argument: the ASCII white
    space 9..13 and 32, and the two white-space characters above 127, 133
    and 160, which it reads as a space.  The separators 28..31 are white
    space for [\s], not for [int]. *)
Definition is_int_blank (c : ascii) : bool :=
  let n := code c in
  (((9 <=? n) && (n <=? 13)) || (n =? 32) || (n =? 133) || (n =? 160))%nat.

Fixpoint skip_leading (s : string) : string :=
  match s with
  | String c s' => if is_int_blank c then skip_leading s' else s
  | EmptyString => EmptyString
  end.

Fixpoint skip_trailing (s : string) : string :=
  match s with
  | EmptyString => EmptyString
  | String c s' =>
      match skip_trailing s' with
      | EmptyString =>
          if is_int_blank c then EmptyString else String c EmptyString
      | t => String c t
      end
  end.

(** The argument of [int] without the blanks at its ends. *)
Definition skip_blanks (s : string) : string := skip_trailing (skip_leading s).

Definition digit_val (c : ascii) : Z := Z.of_nat (code c - 48).

(** The digits of a decimal literal after its sign: digits, with single
    underscores allowed between two digits.  [acc] is the value read so
    far, [prev_digit] tells whether the previous character was a digit. *)
Fixpoint digits (s : string) (acc : Z) (prev_digit : bool) : option Z :=
  match s with
  | EmptyString => if prev_digit then Some acc else None
  | String c s' =>
      if is_digit c then digits s' (10 * acc + digit_val c)%Z true
      else if Ascii.eqb c "_" then
        if prev_digit then
          match s' with
          | String d _ => if is_digit d then digits s' acc false else None
          | EmptyString => None
          end
        else None
      else None
  end.

Fixpoint digit_count (s : string) : nat :=
  match s with
  | EmptyString => 0
  | String c s' => (if is_digit c then 1 else 0) + digit_count s'
  end.

(** [sys.int_max_str_digits] at its default: the number of digits beyond
    which [int] refuses a decimal literal (CPython 3.11 and later). *)
Definition int_max_str_digits : nat := 4300.

(** [int(s)] in base ten; [None] stands for [ValueError]. *)
Definition to_int (s : string) : option Z :=
  if (int_max_str_digits <? digit_count (skip_blanks s))%nat then None
  else
    match skip_blanks s with
    | String c t =>
        if Ascii.eqb c "-" then option_map Z.opp (digits t 0%Z false)
        else if Ascii.eqb c "+" then digits t 0%Z false
        else digits (String c t) 0%Z false
    | EmptyString => None
    end.

(** [sep.join(l)] *)
Fixpoint join (sep : ascii) (l : list string) : string :=
  match l with
  | [] => EmptyString
  | [w] => w
  | w :: ws => w +:+ String sep (join sep ws)
  end.

End PyStr.

(** ** Values, objects and the store *)

Abbreviation loc := nat (only parsing).

(** A Python value as the program sees it after [json.load]: scalars are
    immediate, dicts and lists are references into the store. *)
Inductive val :=
  | VNone
  | VBool (b : bool)
  | VInt (n : Z)
  | VFloat (q : Q)
  | VStr (s : string)
  | VRef (l : loc).

(** A dict keeps its entries in insertion order, one entry per key. *)
Abbreviation entries := (list (string * val)) (only parsing).

Inductive obj :=
  | ODict (kvs : entries)
  | OList (xs : list val).

Abbreviation heap := (list obj) (only parsing).

Module Dict.

Fixpoint get {A} (k : string) (d : list (string * A)) : option A :=
  match d with
  | [] => None
  | (k', v) :: d' => if String.eqb k' k then Some v else get k d'
  end.

(** [d[k] = v]: an existing key keeps its position, a new key goes last. *)
Fixpoint set {A} (k : string) (v : A) (d : list (string * A))
  : list (string * A) :=
  match d with
  | [] => [(k, v)]
  | (k', v') :: d' =>
      if String.eqb k' k then (k, v) :: d' else (k', v') :: set k v d'
  end.

(** [d.update(other)] for a dict [other] *)
Definition update {A} (d other : list (string * A)) : list (string * A) :=
  fold_left (fun acc kv => set (fst kv) (snd kv) acc) other d.

Definition has_key {A} (k : string) (d : list (string * A)) : bool :=
  match get k d with Some _ => true | None => false end.

Definition keys {A} (d : list (string * A)) : list string := map fst d.

End Dict.

Definition alloc (h : heap) (o : obj) : heap * val :=
  (h ++ [o], VRef (length h)).

Definition deref (h : heap) (v : val) : option obj :=
  match v with
  | VRef l => h !! l
  | _ => None
  end.

(** [isinstance(v, dict)] and [isinstance(v, list)] *)
Definition is_dict (h : heap) (v : val) : bool :=
  match deref h v with Some (ODict _) => true | _ => false end.

Definition is_list (h : heap) (v : val) : bool :=
  match deref h v with Some (OList _) => true | _ => false end.

(** Truth value of a Python object under [if v:] *)
Definition truthy (h : heap) (v : val) : bool :=
  match v with
  | VNone => false
  | VBool b => b
  | VInt n => negb (n =? 0)%Z
  | VFloat q => negb (Qnum q =? 0)%Z
  | VStr s => negb (String.eqb s "")
  | VRef l =>
      match h !! l with
      | Some (ODict kvs) => negb (Nat.eqb (length kvs) 0)
      | Some (OList xs) => negb (Nat.eqb (length xs) 0)
      | None => false
      end
  end.

(** ** JSON documents on disk and in the store *)

(** The content of a file as [json.load] parses it. *)
Inductive json :=
  | JNull
  | JBool (b : bool)
  | JInt (n : Z)
  | JFloat (q : Q)
  | JStr (s : string)
  | JList (xs : list json)
  | JDict (kvs : list (string * json)).

(** Induction on documents, with the hypothesis for every element of a list
    and every value of a dict. *)
Section JsonInduction.

Variable P : json -> Prop.
Hypothesis HNull : P JNull.
Hypothesis HBool : forall b, P (JBool b).
Hypothesis HInt : forall n, P (JInt n).
Hypothesis HFloat : forall q, P (JFloat q).
Hypothesis HStr : forall s, P (JStr s).
Hypothesis HList : forall xs, Forall P xs -> P (JList xs).
Hypothesis HDict : forall kvs, Forall (fun kv => P (snd kv)) kvs -> P (JDict kvs).

Fixpoint json_nested_ind (j : json) : P j :=
  match j with
  | JNull => HNull
  | JBool b => HBool b
  | JInt n => HInt n
  | JFloat q => HFloat q
  | JStr s => HStr s
  | JList xs =>
      HList xs ((fix all (xs : list json) : Forall P xs :=
                   match xs with
                   | [] => List.Forall_nil P
                   | x :: xs' => List.Forall_cons P x xs' (json_nested_ind x) (all xs')
                   end) xs)
  | JDict kvs =>
      HDict kvs ((fix all (kvs : list (string * json))
                    : Forall (fun kv => P (snd kv)) kvs :=
                    match kvs with
                    | [] => List.Forall_nil _
                    | kv :: kvs' =>
                        List.Forall_cons (fun kv => P (snd kv)) kv kvs'
                          (json_nested_ind (snd kv)) (all kvs')
                    end) kvs)
  end.

End JsonInduction.

(** [json.load]: builds the objects of a document in the store, children
    before their parent; a key met twice keeps its last value. *)
Fixpoint load_json (j : json) (h : heap) : heap * val :=
  match j with
  | JNull => (h, VNone)
  | JBool b => (h, VBool b)
  | JInt n => (h, VInt n)
  | JFloat q => (h, VFloat q)
  | JStr s => (h, VStr s)
  | JList xs =>
      let fix go (xs : list json) (h : heap) (acc : list val) :=
        match xs with
        | [] => (h, acc)
        | x :: xs' => let '(h1, v) := load_json x h in go xs' h1 (acc ++ [v])
        end in
      let '(h1, vs) := go xs h [] in
      alloc h1 (OList vs)
  | JDict kvs =>
      let fix go (kvs : list (string * json)) (h : heap) (acc : entries) :=
        match kvs with
        | [] => (h, acc)
        | (k, x) :: kvs' =>
            let '(h1, v) := load_json x h in go kvs' h1 (Dict.set k v acc)
        end in
      let '(h1, es) := go kvs h [] in
      alloc h1 (ODict es)
  end.

(** Reading a value of the store back as a document, to depth [n]. *)
Fixpoint reify (n : nat) (h : heap) (v : val) : option json :=
  match v with
  | VNone => Some JNull
  | VBool b => Some (JBool b)
  | VInt z => Some (JInt z)
  | VFloat q => Some (JFloat q)
  | VStr s => Some (JStr s)
  | VRef l =>
      match n with
      | O => None
      | S n' =>
          match h !! l with
          | Some (OList xs) =>
              xs' ← mapM (reify n' h) xs; Some (JList xs')
          | Some (ODict kvs) =>
              kvs' ← mapM (fun kv => j ← reify n' h (snd kv); Some (fst kv, j)) kvs;
              Some (JDict kvs')
          | None => None
          end
      end
  end.

(** [json.dump]: a container met again below itself is a circular reference
    ([ValueError]).  A path through the store longer than the store repeats a
    container, so depth [S (length h)] separates the two cases. *)
Definition dump (h : heap) (v : val) : result json :=
  match reify (S (length h)) h v with
  | Some j => Ok j
  | None => Raise ValueError
  end.

(** Left-to-right iteration of a fallible loop body over a list. *)
Fixpoint for_each {A S} (body : S -> A -> result S) (s : S) (xs : list A)
  : result S :=
  match xs with
  | [] => Ok s
  | x :: xs' => s' ← body s x; for_each body s' xs'
  end.

(** ** Reference kinds *)

Inductive SchemaRefType := INTERNAL | EXTERNAL | EXTERNAL_INTERNAL.

(** [evaluate_ref]: [ref_value[0]] is read before any shape is tested. *)
Definition evaluate_ref (ref_value : val) : result SchemaRefType :=
  match ref_value with
  | VStr s =>
      match s with
      | EmptyString => Raise IndexError
      | String c _ =>
          if Ascii.eqb c "." && PyStr.mem_char "#" s then Ok EXTERNAL_INTERNAL
          else if Ascii.eqb c "." then Ok EXTERNAL
          else if Ascii.eqb c "#" then Ok INTERNAL
          else Raise ValueError
      end
  | _ => Raise TypeError
  end.

(** ** Searching a dict for a key *)

(** [walk_dict_helper]: the first key, in a depth-first walk in insertion
    order, whose lower-case form is the lower-case target; only dict values
    are entered. *)
Fixpoint walk_dict_helper (rl : nat) (h : heap) (target_key : string)
    (dictionary : val) (path : string) : result (option (string * val)) :=
  match rl with
  | O => Raise RecursionError
  | S rl' =>
      match deref h dictionary with
      | Some (ODict kvs) =>
          (fix items (kvs : entries) : result (option (string * val)) :=
             match kvs with
             | [] => Ok None
             | (key, value) :: rest =>
                 let current_path :=
                   if String.eqb path "" then key else path +:+ "." +:+ key in
                 if String.eqb (PyStr.lower key) (PyStr.lower target_key)
                 then Ok (Some (current_path, value))
                 else if is_dict h value then
                   m ← walk_dict_helper rl' h target_key value current_path;
                   match m with
                   | Some found => Ok (Some found)
                   | None => items rest
                   end
                 else items rest
             end) kvs
      | _ => Raise AttributeError
      end
  end.

Definition walk_dictionary (rl : nat) (h : heap) (dictionary : val)
    (target_key : string) : result (string * val) :=
  if negb (is_dict h dictionary) then Raise TypeError
  else
    output ← walk_dict_helper rl h target_key dictionary "";
    match output with
    | Some found => Ok found
    | None => Raise KeyError
    end.

(** ** Collecting references *)

(** [walk_references]: values under a key ["$ref"], entering dict values and
    those list values all of whose elements are dicts. *)
Fixpoint walk_references (rl : nat) (h : heap) (schema : val)
  : result (list val) :=
  match rl with
  | O => Raise RecursionError
  | S rl' =>
      match deref h schema with
      | Some (ODict kvs) =>
          for_each (fun output kv =>
            let '(key, value) := kv in
            if String.eqb key "$ref" then Ok (output ++ [value])
            else match deref h value with
                 | Some (ODict _) =>
                     inner ← walk_references rl' h value; Ok (output ++ inner)
                 | Some (OList xs) =>
                     if forallb (is_dict h) xs then
                       for_each (fun output each =>
                         inner ← walk_references rl' h each;
                         Ok (output ++ inner)) output xs
                     else Ok output
                 | None => Ok output
                 end) [] kvs
      | _ => Raise AttributeError
      end
  end.

(** ** Copies *)

Definition dict_store (h : heap) (l : loc) (k : string) (v : val) : heap :=
  match h !! l with
  | Some (ODict kvs) => <[l := ODict (Dict.set k v kvs)]> h
  | _ => h
  end.

Definition list_append (h : heap) (l : loc) (v : val) : heap :=
  match h !! l with
  | Some (OList xs) => <[l := OList (xs ++ [v])]> h
  | _ => h
  end.

Fixpoint memo_get (memo : list (loc * loc)) (l : loc) : option loc :=
  match memo with
  | [] => None
  | (a, b) :: memo' => if Nat.eqb a l then Some b else memo_get memo' l
  end.

(** [copy.deepcopy] with its memo: the copy of a container is created empty
    and registered before its elements are copied, so sharing and cycles
    are reproduced in the copy. *)
Fixpoint deepcopy (rl : nat) (memo : list (loc * loc)) (h : heap) (x : val)
  : result (heap * list (loc * loc) * val) :=
  match x with
  | VRef l =>
      match memo_get memo l with
      | Some y => Ok (h, memo, VRef y)
      | None =>
          match rl with
          | O => Raise RecursionError
          | S rl' =>
              let y := length h in
              match h !! l with
              | Some (ODict kvs) =>
                  '(h', memo') ← for_each (fun (st : heap * list (loc * loc)) kv =>
                      '(h1, memo1, v) ← deepcopy rl' st.2 st.1 (snd kv);
                      Ok (dict_store h1 y (fst kv) v, memo1))
                    (h ++ [ODict []], (l, y) :: memo) kvs;
                  Ok (h', memo', VRef y)
              | Some (OList xs) =>
                  '(h', memo') ← for_each (fun (st : heap * list (loc * loc)) a =>
                      '(h1, memo1, v) ← deepcopy rl' st.2 st.1 a;
                      Ok (list_append h1 y v, memo1))
                    (h ++ [OList []], (l, y) :: memo) xs;
                  Ok (h', memo', VRef y)
              | None => Raise OutsideModel
              end
          end
      end
  | _ => Ok (h, memo, x)
  end.

Definition deep_copy (rl : nat) (h : heap) (x : val) : result (heap * val) :=
  '(h', _, y) ← deepcopy rl [] h x; Ok (h', y).

(** ** Annotation fields kept across a merge *)

Definition fields_to_keep : list string :=
  ["nullable"; "title"; "description"; "x-virtual"; "format"].

(** The body of the loop of [cache_json_properties] over the fields: a field
    is cached when the search finds it and the value found is true; a field
    the search does not find ([KeyError]) is passed over. *)
Definition cache_body (rl : nat) (h : heap) (arb_object : val)
    (cached : entries) (field : string) : result entries :=
  match walk_dictionary rl h arb_object field with
  | Raise KeyError => Ok cached
  | Raise e => Raise e
  | Ok (_, value_found) =>
      if truthy h value_found
      then Ok (Dict.set field value_found cached)
      else Ok cached
  end.

(** [cache_json_properties]: [None] when nothing was cached. *)
Definition cache_json_properties (rl : nat) (h : heap) (arb_object : val)
  : result (option entries) :=
  cached ← for_each (cache_body rl h arb_object) [] fields_to_keep;
  match cached with
  | [] => Ok None
  | _ => Ok (Some cached)
  end.

(** ** Merging resolved fragments into a document *)

(** One gathered sub schema: the dict [{"$ref": ref, "sub_schema": sub_schema}]
    that [resolve_references] builds.  [ref] is a string: it has passed
    [evaluate_ref]. *)
Record binding := Binding { ref : string; sub_schema : val }.

(** [each["$ref"] == ref_value] with a string on the left. *)
Definition ref_equal (r : string) (ref_value : val) : bool :=
  match ref_value with
  | VStr s => String.eqb r s
  | _ => false
  end.

Fixpoint find_sub_schema_by_ref_value (ref_schemas : list binding)
    (ref_value : val) : option val :=
  match ref_schemas with
  | [] => None
  | each :: rest =>
      if ref_equal (ref each) ref_value then Some (sub_schema each)
      else find_sub_schema_by_ref_value rest ref_value
  end.

(** One element of the sequence given to [dict.update]: it must unpack into
    a key and a value. *)
Definition update_item (h : heap) (item : val) : result (string * val) :=
  match item with
  | VStr (String a (String b EmptyString)) =>
      Ok (String a EmptyString, VStr (String b EmptyString))
  | VStr _ => Raise ValueError
  | VRef l =>
      match h !! l with
      | Some (OList [VStr k; v]) => Ok (k, v)
      | Some (OList [VRef _; _]) => Raise TypeError
      | Some (OList [_; _]) => Raise OutsideModel
      | Some (OList _) => Raise ValueError
      | Some (ODict [(k1, _); (k2, _)]) => Ok (k1, VStr k2)
      | Some (ODict _) => Raise ValueError
      | None => Raise OutsideModel
      end
  | _ => Raise TypeError
  end.

(** The entries that [d.update(other)] writes for an arbitrary [other]: the
    entries of a dict, the pairs of a sequence; a non-empty string fails on
    its first character, a scalar is not iterable. *)
Definition update_items (h : heap) (other : val) : result entries :=
  match other with
  | VStr EmptyString => Ok []
  | VStr _ => Raise ValueError
  | VRef l =>
      match h !! l with
      | Some (ODict kvs) => Ok kvs
      | Some (OList xs) =>
          for_each (fun acc item => kv ← update_item h item; Ok (acc ++ [kv]))
            [] xs
      | None => Raise OutsideModel
      end
  | _ => Raise TypeError
  end.

(** The loop over [keys_to_keep] at a reference site [a]:
    [kept_keys.update(copy.deepcopy(arb_object[key_to_keep]))], a missing
    key being logged and skipped. *)
Definition keep_keys (rl : nat) (h : heap) (a : loc)
    (keys_to_keep : option (list string)) : result (heap * entries) :=
  match keys_to_keep with
  | None | Some [] => Ok (h, [])
  | Some keys =>
      for_each (fun (st : heap * entries) key_to_keep =>
        match st.1 !! a with
        | Some (ODict site) =>
            match Dict.get key_to_keep site with
            | None => Ok st
            | Some v =>
                '(h1, c) ← deep_copy rl st.1 v;
                items ← update_items h1 c;
                Ok (h1, Dict.update st.2 items)
            end
        | _ => Ok st
        end) (h, []) keys
  end.

Definition dict_entries (h : heap) (v : val) : entries :=
  match deref h v with
  | Some (ODict kvs) => kvs
  | _ => []
  end.

(** [arb_object.update(other)] on the dict at [a] *)
Definition dict_update (h : heap) (a : loc) (other : entries) : heap :=
  match h !! a with
  | Some (ODict kvs) => <[a := ODict (Dict.update kvs other)]> h
  | _ => h
  end.

(** The body of the [key == "$ref"] branch of [walk_and_merge_references] for
    the dict at [a] whose reference value is [value].  The fragment is read
    after the site has been cleared: a fragment that is the site itself is
    empty by then. *)
Definition merge_site (rl : nat) (h : heap) (a : loc) (value : val)
    (ref_schemas : list binding) (keys_to_keep : option (list string))
  : result heap :=
  match find_sub_schema_by_ref_value ref_schemas value with
  | Some ref_schema =>
      if truthy h ref_schema && is_dict h ref_schema then
        '(h1, c) ← deep_copy rl h (VRef a);
        cached_fields ← cache_json_properties rl h1 c;
        '(h2, kept_keys) ← keep_keys rl h1 a keys_to_keep;
        let h3 := <[a := ODict []]> h2 in
        let h4 := dict_update h3 a (dict_entries h3 ref_schema) in
        let h5 := match kept_keys with
                  | [] => h4
                  | _ => dict_update h4 a kept_keys
                  end in
        match cached_fields with
        | Some cached => Ok (dict_update h5 a cached)
        | None => Ok h5
        end
      else Ok h
  | None => Ok h
  end.

(** [walk_and_merge_references]: the entries walked are those the dict had
    when its visit began ([arb_object.copy().items()]); the object returned
    is [arb_object] itself, so only the store is returned here. *)
Fixpoint walk_and_merge_references (rl : nat) (h : heap) (arb_object : val)
    (ref_schemas : list binding) (keys_to_keep : option (list string))
  : result heap :=
  match rl with
  | O => Raise RecursionError
  | S rl' =>
      match arb_object with
      | VRef a =>
          match h !! a with
          | Some (ODict kvs) =>
              for_each (fun h kv =>
                let '(key, value) := kv in
                if String.eqb key "$ref" then
                  merge_site rl' h a value ref_schemas keys_to_keep
                else match deref h value with
                     | Some (ODict _) =>
                         walk_and_merge_references rl' h value ref_schemas
                           (Some ["i6RefCollectionName"])
                     | Some (OList xs) =>
                         for_each (fun h each =>
                           walk_and_merge_references rl' h each ref_schemas
                             (Some ["i6RefCollectionName"])) h xs
                     | None => Ok h
                     end) h kvs
          | _ => Ok h
          end
      | _ => Ok h
      end
  end.

(** [extract_json_schema_from_oas] *)
Definition extract_json_schema_from_oas (h : heap) (arb_object : val)
  : result val :=
  match deref h arb_object with
  | Some (ODict kvs) =>
      match Dict.get "properties" kvs with
      | Some v => Ok v
      | None => Ok arb_object
      end
  | _ => Raise AttributeError
  end.

(** ** Locating a pointer in a document *)

(** [_is_targeting_list_item]: the list index, and the keys once the index
    segment has been popped. *)
Definition _is_targeting_list_item (keys_from_ref_string : list string)
  : option Z * list string :=
  match last keys_from_ref_string with
  | Some k =>
      match PyStr.to_int k with
      | Some list_index => (Some list_index, removelast keys_from_ref_string)
      | None => (None, keys_from_ref_string)
      end
  | None => (None, keys_from_ref_string)
  end.

(** [xs[i]] with Python's negative indices; [None] is out of range. *)
Definition py_index {A} (xs : list A) (i : Z) : option A :=
  if (0 <=? i)%Z then xs !! Z.to_nat i
  else if (- Z.of_nat (length xs) <=? i)%Z
       then xs !! Z.to_nat (Z.of_nat (length xs) + i)
  else None.

(** [current_output[key]] for a string key *)
Definition subscript_key (h : heap) (current_output : val) (key : string)
  : result val :=
  match current_output with
  | VRef l =>
      match h !! l with
      | Some (ODict kvs) =>
          match Dict.get key kvs with
          | Some v => Ok v
          | None => Raise KeyError
          end
      | Some (OList _) => Raise TypeError
      | None => Raise OutsideModel
      end
  | _ => Raise TypeError
  end.

(** [current_output[list_index]] for an integer index *)
Definition subscript_index (h : heap) (current_output : val) (list_index : Z)
  : result val :=
  match current_output with
  | VRef l =>
      match h !! l with
      | Some (OList xs) =>
          match py_index xs list_index with
          | Some v => Ok v
          | None => Raise IndexError
          end
      | Some (ODict _) => Raise KeyError
      | None => Raise OutsideModel
      end
  | VStr s =>
      match py_index (list_ascii_of_string s) list_index with
      | Some c => Ok (VStr (String c EmptyString))
      | None => Raise IndexError
      end
  | _ => Raise TypeError
  end.

Definition index_true (list_index : option Z) : bool :=
  match list_index with
  | Some i => negb (i =? 0)%Z
  | None => false
  end.

(** The traversal loop of [fetch_value_from_ref]. *)
Definition traverse (h : heap) (list_index : option Z) (keys : list string)
    (data_dict : val) : result val :=
  for_each (fun current_output key =>
    if is_list h current_output && index_true list_index then Ok current_output
    else subscript_key h current_output key) data_dict keys.

Definition is_int (v : val) : bool :=
  match v with VInt _ => true | _ => false end.

Fixpoint last_from (c : ascii) (s : string) : ascii :=
  match s with
  | EmptyString => c
  | String d s' => last_from d s'
  end.

(** [fetch_value_from_ref].  The enum fragment is a new dict holding a new
    one-element list.  A reference that is neither a string nor an [int]
    fails when it is sliced or split (for a dict: [TypeError] up to Python
    3.11). *)
Definition fetch_value_from_ref (h : heap) (ref_string : val) (data_dict : val)
  : result (heap * val) :=
  match ref_string with
  | VStr s =>
      match s with
      | EmptyString => Raise ValueError
      | String c0 s0 =>
          if negb (Ascii.eqb c0 "#") then Raise ValueError
          else if PyStr.is_special (last_from c0 s0) then Raise ValueError
          else
            let '(list_index, keys) :=
              _is_targeting_list_item (PyStr.split "/" (PyStr.drop 2 s)) in
            current_output ← traverse h list_index keys data_dict;
            match list_index with
            | Some i =>
                if PyStr.contains "/enum/" (PyStr.lower s) then
                  match deref h current_output with
                  | Some (OList xs) =>
                      let enum_type :=
                        if forallb is_int xs then "number" else "string" in
                      match py_index xs i with
                      | Some x =>
                          let '(h1, l) := alloc h (OList [x]) in
                          Ok (alloc h1
                                (ODict [("enum", l); ("type", VStr enum_type)]))
                      | None => Raise IndexError
                      end
                  | _ => Raise TypeError
                  end
                else
                  v ← subscript_index h current_output i; Ok (h, v)
            | None => Ok (h, current_output)
            end
      end
  | VInt _ => Raise ValueError
  | VRef l =>
      match h !! l with
      | Some (OList _) => Raise AttributeError
      | _ => Raise TypeError
      end
  | _ => Raise TypeError
  end.

(** ** Paths and files

    A resolved path is the list of its segments below the root.  The file
    store holds the parsed content of every readable JSON file under its
    resolved path; there are no symbolic links, and reading any other path
    fails ([FileNotFoundError] stands for every failure of [open] and
    [json.load]). *)
Module Path.

Definition t := list string.

(** The segments of a path as [pathlib] parses it: empty segments and
    ["."] are dropped. *)
Definition segments (p : string) : list string :=
  filter (fun seg => seg <> "" /\ seg <> ".") (PyStr.split "/" p).

Definition is_absolute (p : string) : bool := PyStr.starts_with "/" p.

(** Removal of [".."] segments, left to right; the parent of the root is
    the root. *)
Fixpoint normalize (base : t) (segs : list string) : t :=
  match segs with
  | [] => base
  | seg :: rest =>
      if String.eqb seg ".." then normalize (removelast base) rest
      else normalize (base ++ [seg]) rest
  end.

(** [(base / p).resolve(strict=False)] *)
Definition join_resolve (base : t) (p : string) : t :=
  normalize (if is_absolute p then [] else base) (segments p).

Definition parent (p : t) : t := removelast p.

End Path.

(** [get_path_relative_to] *)
Definition get_path_relative_to (pointing_to : string)
    (current_location : Path.t) : Path.t :=
  Path.join_resolve current_location pointing_to.

Definition file_store := list (Path.t * json).

Fixpoint read_file (fs : file_store) (p : Path.t) : result json :=
  match fs with
  | [] => Raise FileNotFoundError
  | (q, j) :: fs' => if decide (q = p) then Ok j else read_file fs' p
  end.

Fixpoint write_file (fs : file_store) (p : Path.t) (j : json) : file_store :=
  match fs with
  | [] => [(p, j)]
  | (q, j') :: fs' =>
      if decide (q = p) then (p, j) :: fs' else (q, j') :: write_file fs' p j
  end.

(** ** The scheduler *)

(** The local variable [oas_spec] of [resolve_references]: unbound until the
    first external document is loaded, and kept from one file to the next.
    The objects of a file's processing are built in a store of their own; a
    document kept from an earlier file comes with the store it lives in. *)
Inductive oas_var :=
  | Unbound
  | Earlier (h : heap) (v : val)
  | Current (v : val).

Record state := State {
  files : file_store;
  deferred_files : list string;
  oas_spec : option (heap * val)
}.

Definition carried (o : option (heap * val)) : oas_var :=
  match o with
  | Some (h, v) => Earlier h v
  | None => Unbound
  end.

Definition settle (o : oas_var) (h : heap) : option (heap * val) :=
  match o with
  | Unbound => None
  | Earlier h0 v => Some (h0, v)
  | Current v => Some (h, v)
  end.

Section Scheduler.

(** The recursion limit and the working directory of the run. *)
Variable rl : nat.
Variable cwd : Path.t.

(** The loop over [refs_found].  The last component of the result tells
    whether the loop was left by [break]. *)
Fixpoint gather (fs : file_store) (file_path : string) (source_oas_spec : val)
    (refs : list val) (h : heap) (sub_schemas : list binding) (oas : oas_var)
  : result (heap * list binding * oas_var * bool) :=
  match refs with
  | [] => Ok (h, sub_schemas, oas, false)
  | ref_link :: rest =>
      kind ← evaluate_ref ref_link;
      match kind, ref_link with
      | INTERNAL, VStr r =>
          '(h1, sub) ← fetch_value_from_ref h ref_link source_oas_spec;
          gather fs file_path source_oas_spec rest h1
            (sub_schemas ++ [Binding r sub]) oas
      | EXTERNAL_INTERNAL, VStr r =>
          let parts := PyStr.split "#" r in
          let referenced_oas_relative_path := hd "" parts in
          let referenced_oas_absolute_path :=
            get_path_relative_to referenced_oas_relative_path
              (Path.parent (Path.join_resolve cwd file_path)) in
          let sub_schema_location_in_oas := VStr ("#" +:+ List.last parts "") in
          j ← read_file fs referenced_oas_absolute_path;
          let '(h1, oas_spec) := load_json j h in
          '(h2, _) ← fetch_value_from_ref h1 sub_schema_location_in_oas oas_spec;
          sub ← extract_json_schema_from_oas h2 oas_spec;
          has_refs ← walk_references rl h2 sub;
          match has_refs with
          | _ :: _ => Ok (h2, sub_schemas, Current oas_spec, true)
          | [] =>
              '(h3, fragment) ←
                fetch_value_from_ref h2 sub_schema_location_in_oas sub;
              gather fs file_path source_oas_spec rest h3
                (sub_schemas ++ [Binding r fragment]) (Current oas_spec)
          end
      | _, _ => gather fs file_path source_oas_spec rest h sub_schemas oas
      end
  end.

(** [deferred_files.pop(deferred_files.index(file_path))] *)
Fixpoint remove_first (file_path : string) (l : list string)
  : result (list string) :=
  match l with
  | [] => Raise ValueError
  | x :: l' =>
      if String.eqb x file_path then Ok l'
      else l'' ← remove_first file_path l'; Ok (x :: l'')
  end.

(** The body of the loop over [deferred_files] for one file. *)
Definition process_file (st : state) (file_path : string) : result state :=
  let here := Path.join_resolve cwd file_path in
  j ← read_file (files st) here;
  let '(h0, source_oas_spec) := load_json j [] in
  refs_found ← walk_references rl h0 source_oas_spec;
  match refs_found with
  | [] =>
      d ← remove_first file_path (deferred_files st);
      Ok (State (files st) d (oas_spec st))
  | _ :: _ =>
      '(h1, sub_schemas, oas, _) ←
        gather (files st) file_path source_oas_spec refs_found h0 []
          (carried (oas_spec st));
      match sub_schemas with
      | [] => Ok (State (files st) (deferred_files st) (settle oas h1))
      | _ :: _ =>
          h2 ← walk_and_merge_references rl h1 source_oas_spec sub_schemas
                 (Some ["i6RefCollectionName"]);
          resolved ← dump h2 source_oas_spec;
          let files' := write_file (files st) here resolved in
          still_refs_found ←
            match oas with
            | Unbound => Raise UnboundLocalError
            | Earlier h_old v => walk_references rl h_old v
            | Current v => walk_references rl h2 v
            end;
          match still_refs_found with
          | [] =>
              d ← remove_first file_path (deferred_files st);
              Ok (State files' d (settle oas h2))
          | _ :: _ => Ok (State files' (deferred_files st) (settle oas h2))
          end
      end
  end.

(** [for file_path in deferred_files]: the list iterator reads position
    [i] of the list as it is now, so a removal during the loop shifts the
    files still to come.  [n] bounds the number of iterations. *)
Fixpoint for_deferred (n : nat) (i : nat) (st : state) : result state :=
  match n with
  | O => Ok st
  | S n' =>
      match deferred_files st !! i with
      | None => Ok st
      | Some file_path =>
          st' ← process_file st file_path; for_deferred n' (S i) st'
      end
  end.

(** One execution of the body of [while deferred_files]. *)
Definition pass (st : state) : result state :=
  for_deferred (length (deferred_files st)) 0 st.

(** [while deferred_files], run for at most [passes] passes: [None] when
    the loop is still running after them. *)
Fixpoint resolve_loop (passes : nat) (st : state) : option (result state) :=
  match deferred_files st with
  | [] => Some (Ok st)
  | _ :: _ =>
      match passes with
      | O => None
      | S passes' =>
          match pass st with
          | Ok st' => resolve_loop passes' st'
          | Raise e => Some (Raise e)
          end
      end
  end.

(** [resolve_references], from the files that [find_files_with_extension]
    lists under the target path. *)
Definition resolve_references (passes : nat) (fs : file_store)
    (json_file_paths : list string) : option (result state) :=
  resolve_loop passes (State fs json_file_paths None).

End Scheduler.

(** ** Notions used in the statements *)

(** [extends h h']: every object of [h] is in [h'], unchanged. *)
Definition extends (h h' : heap) : Prop :=
  length h <= length h' /\ forall l, l < length h -> h' !! l = h !! l.

(** A store is well formed when every dict in it has one entry per key, as
    every Python dict has. *)
Definition wf_obj (o : obj) : Prop :=
  match o with
  | ODict kvs => List.NoDup (Dict.keys kvs)
  | OList _ => True
  end.

Definition wf_store (h : heap) : Prop := Forall wf_obj h.

(** The value [cache_json_properties] captures for a field: the first match
    of the search, when it is true. *)
Definition captured (rl : nat) (h : heap) (arb_object : val) (field : string)
  : option val :=
  match walk_dictionary rl h arb_object field with
  | Ok (_, value_found) => if truthy h value_found then Some value_found else None
  | Raise _ => None
  end.

(** The entries of a site after a merge: the fragment written into the
    cleared site, then the kept entries, then the cached fields. *)
Definition merged_entries (fragment kept : entries) (cached : option entries)
  : entries :=
  Dict.update (Dict.update (Dict.update [] fragment) kept) (default [] cached).

(** The document that the processing of one file computes and writes back
    (the steps of [process_file] between the load and the write), for a file
    with content [j] in a run that has not yet loaded an external document. *)
Definition resolved_document (rl : nat) (cwd : Path.t) (fs : file_store)
    (file_path : string) (j : json) : result json :=
  let '(h0, source_oas_spec) := load_json j [] in
  refs_found ← walk_references rl h0 source_oas_spec;
  '(h1, sub_schemas, _, _) ←
    gather rl cwd fs file_path source_oas_spec refs_found h0 [] Unbound;
  h2 ← walk_and_merge_references rl h1 source_oas_spec sub_schemas
         (Some ["i6RefCollectionName"]);
  dump h2 source_oas_spec.

(** ** Sample documents *)

Module Samples.

Definition keep : option (list string) := Some ["i6RefCollectionName"].

(** A site with a true annotation, and a fragment that contradicts it. *)
Definition annotated : json :=
  JDict [("s", JDict [("$ref", JStr "#/x"); ("nullable", JBool true)]);
         ("x", JDict [("type", JStr "string"); ("nullable", JBool false)])].

(** A site with a false annotation, and a fragment that contradicts it. *)
Definition annotated_false : json :=
  JDict [("s", JDict [("$ref", JStr "#/x"); ("nullable", JBool false)]);
         ("x", JDict [("type", JStr "string"); ("nullable", JBool true)])].

(** A site with a false annotation, and a fragment without the field. *)
Definition annotated_false_omitted : json :=
  JDict [("s", JDict [("$ref", JStr "#/x"); ("nullable", JBool false)]);
         ("x", JDict [("type", JStr "string")])].

(** A reference to a fragment that is itself a reference. *)
Definition chained : json :=
  JDict [("s", JDict [("$ref", JStr "#/a")]);
         ("a", JDict [("$ref", JStr "#/b")]);
         ("b", JDict [("type", JStr "string")])].

(** A site with the collection-name key, as a string and as a dict. *)
Definition collection_string : json :=
  JDict [("s", JDict [("$ref", JStr "#/x");
                      ("i6RefCollectionName", JStr "users")]);
         ("x", JDict [("type", JStr "string")])].

Definition collection_dict : json :=
  JDict [("s", JDict [("$ref", JStr "#/x");
                      ("i6RefCollectionName", JDict [("name", JStr "users")])]);
         ("x", JDict [("type", JStr "string")])].

(** In the store of each of the three [annotated] documents the site [s]
    is at 0 and the fragment [x] at 1. *)
Definition store (j : json) : heap := (load_json j []).1.

Definition merged (j : json) (x : loc) : heap :=
  match merge_site 1000 (store j) 0 (VStr "#/x") [Binding "#/x" (VRef x)] keep with
  | Ok h => h
  | Raise _ => []
  end.

Definition site_copy (j : json) : heap * val :=
  match deep_copy 1000 (store j) (VRef 0) with
  | Ok r => r
  | Raise _ => ([], VNone)
  end.

(** Documents in which a fragment is shared with, is, or contains the site
    it is merged into. *)
Definition shared_fragment : json :=
  JDict [("a", JDict [("$ref", JStr "#/defs/x")]);
         ("defs", JDict [("x", JDict [("p", JDict [("$ref", JStr "#/defs/y")])]);
                         ("y", JDict [("type", JStr "string")])])].

Definition self_reference : json :=
  JDict [("a", JDict [("$ref", JStr "#/a"); ("k", JInt 1)])].

Definition enclosing_fragment : json :=
  JDict [("x", JDict [("q", JDict [("$ref", JStr "#/x")])])].

Definition enclosing_fragment_searched : json :=
  JDict [("a", JDict [("x", JDict [("$ref", JStr "#/a")]); ("$ref", JStr "#/e")]);
         ("e", JDict [("t", JInt 1)])].

End Samples.

(** File sets for the scheduler. *)
Module Runs.

(** One file whose only reference is internal, at a site of its own. *)
Definition internal_nested : json :=
  JDict [("a", JDict [("$ref", JStr "#/defs/x")]);
         ("defs", JDict [("x", JDict [("type", JStr "string")])])].

(** The same reference at the root of the document. *)
Definition internal_only : json :=
  JDict [("$ref", JStr "#/defs/x");
         ("defs", JDict [("x", JDict [("type", JStr "string")])])].

Definition internal_files : file_store := [(["d"; "a.json"], internal_only)].

(** A file with a reference to the default location of another file. *)
Definition external_files : file_store :=
  [(["d"; "a.json"], JDict [("$ref", JStr "./b.json")]);
   (["d"; "b.json"], JDict [("properties", JDict [("type", JStr "string")])])].

(** A file that points into itself through its own path. *)
Definition cyclic_files : file_store :=
  [(["d"; "a.json"],
    JDict [("$ref", JStr "./a.json#/x"); ("x", JDict [("type", JStr "string")])])].

(** The state every pass over [cyclic_files] ends in. *)
Definition cyclic_stuck : state :=
  match pass 1000 [] (State cyclic_files ["/d/a.json"] None) with
  | Ok st => st
  | Raise _ => State [] [] None
  end.

(** A file pointing into a document that has a ["properties"] key. *)
Definition referencing : json :=
  JDict [("a", JDict [("$ref", JStr "./b.json#/t")])].

Definition referenced : json :=
  JDict [("properties", JDict [("t", JDict [("type", JStr "string")])]);
         ("t", JDict [("type", JStr "number")])].

Definition referencing_files : file_store :=
  [(["d"; "a.json"], referencing); (["d"; "b.json"], referenced)].



(** The enum of [test_fetch_value_from_ref], and an enum of integers. *)
Definition units : json :=
  JDict [("key2",
          JDict [("nested_key4",
                  JDict [("enum", JList [JStr "KG"; JStr "MT"; JStr "LB"]);
                         ("type", JStr "string")])])].

Definition sizes : json :=
  JDict [("sizes", JDict [("enum", JList [JInt 10; JInt 20])])].

(** [fetch_value_from_ref] on a document read from a file, the result read
    back as a document. *)
Definition located (pointer : string) (j : json) : result json :=
  let '(h, d) := load_json j [] in
  '(h', v) ← fetch_value_from_ref h (VStr pointer) d;
  dump h' v.

(** [walk_dictionary] on a document, the value found read back as a
    document. *)
Definition searched (target_key : string) (j : json) : result (string * json) :=
  let '(h, d) := load_json j [] in
  '(path, v) ← walk_dictionary 1000 h d target_key;
  j' ← dump h v;
  Ok (path, j').

(** The documents of [test_walk_dictionary] and
    [test_fetch_value_from_ref]. *)
Definition flat : json :=
  JDict [("key1", JStr "value1"); ("key2", JStr "value2")].

Definition nested : json :=
  JDict [("key1", JStr "value1");
         ("key2", JDict [("subkey1", JStr "subvalue1");
                         ("subkey2", JDict [("nested_key", JStr "nested_value")])])].

Definition nested_plain : json :=
  JDict [("key1", JStr "value1");
         ("key2", JDict [("subkey1", JStr "subvalue1");
                         ("subkey2", JStr "non-json-value")])].

Definition numeric : json :=
  JDict [("key1", JInt 1);
         ("key2", JDict [("subkey1", JInt 2);
                         ("subkey2", JDict [("nested_key", JInt 3)])])].

Definition nested_dict : json :=
  JDict [("key1",
          JDict [("nested_key1",
                  JDict [("deep_key1", JDict [("inner_key1", JStr "value1")])]);
                 ("nested_key2",
                  JDict [("deep_key2", JDict [("inner_key2", JStr "value2")])])]);
         ("key2",
          JDict [("nested_key3",
                  JDict [("deep_key3",
                          JDict [("inner_key3", JList [JStr "a"; JStr "b"])])]);
                 ("nested_key4",
                  JDict [("enum", JList [JStr "KG"; JStr "MT"; JStr "LB"]);
                         ("type", JStr "string")])])].

(** Three files without references. *)
Definition plain_files : file_store :=
  [(["d"; "a.json"], JDict []); (["d"; "b.json"], JDict []);
   (["d"; "c.json"], JDict [])].

End Runs.

(** ** Notions used in the further properties *)

(** A sub schema that [walk_and_merge_references] merges: a dict that is not
    empty ([if ref_schema and type(ref_schema) == dict]). *)
Definition mergeable (h : heap) (ref_schema : val) : bool :=
  truthy h ref_schema && is_dict h ref_schema.

(** An object that holds no reference of its own: a list, or a dict without
    a ["$ref"] key. *)
Definition no_ref_key (h : heap) (l : loc) : Prop :=
  match h !! l with
  | Some (OList _) => True
  | Some (ODict kvs) => ~ In "$ref" (Dict.keys kvs)
  | None => False
  end.

Module More.

(** A site whose reference resolves to a string. *)
Definition string_fragment : json :=
  JDict [("s", JDict [("$ref", JStr "#/x"); ("title", JStr "T")]);
         ("x", JStr "text")].

(** A document whose path [a] is a list of dicts. *)
Definition list_on_path : json :=
  JDict [("a", JList [JDict [("b", JInt 1)]; JDict [("b", JInt 2)];
                      JDict [("b", JInt 3)]])].

End More.

(** A file that can be read and in which [walk_references] finds nothing. *)
Definition ref_free (rl : nat) (cwd : Path.t) (fs : file_store)
    (file_path : string) : Prop :=
  exists j,
    read_file fs (Path.join_resolve cwd file_path) = Ok j /\
    walk_references rl (load_json j []).1 (load_json j []).2 = Ok [].

(** The elements of a list at its second, fourth, ... place. *)
Fixpoint every_other {A} (l : list A) : list A :=
  match l with
  | _ :: y :: l' => y :: every_other l'
  | _ => []
  end.

(** The path [walk_dict_helper] writes for a key below a path: the two
    joined by a dot, a path that is empty being left out. *)
Definition dotted_step (path key : string) : string :=
  if String.eqb path "" then key else path +:+ "." +:+ key.

Definition dotted (path : string) (keys : list string) : string :=
  fold_left dotted_step keys path.

(** [key_chain h target d keys v]: following [keys] from the dict [d], each
    key but the last leading to a dict, ends on a key that is the target up
    to case and holds [v]. *)
Inductive key_chain (h : heap) (target_key : string)
  : val -> list string -> val -> Prop :=
  | chain_here d kvs key value :
      deref h d = Some (ODict kvs) -> In (key, value) kvs ->
      PyStr.lower key = PyStr.lower target_key ->
      key_chain h target_key d [key] value
  | chain_below d kvs key value keys v :
      deref h d = Some (ODict kvs) -> In (key, value) kvs ->
      is_dict h value = true ->
      key_chain h target_key value keys v ->
      key_chain h target_key d (key :: keys) v.

Definition key_nowhere (h : heap) (target_key : string) (d : val) : Prop :=
  forall keys v, ~ key_chain h target_key d keys v.

(** [ref_at h d v]: [v] is the value of a ["$ref"] key of the dict [d], or
    of a dict below it through keys other than ["$ref"], each leading to a
    dict or to a list all of whose elements are dicts. *)
Inductive ref_at (h : heap) : val -> val -> Prop :=
  | ref_here d kvs v :
      deref h d = Some (ODict kvs) -> In ("$ref", v) kvs -> ref_at h d v
  | ref_in_dict d kvs key value v :
      deref h d = Some (ODict kvs) -> In (key, value) kvs -> key <> "$ref" ->
      is_dict h value = true -> ref_at h value v -> ref_at h d v
  | ref_in_list d kvs key value xs each v :
      deref h d = Some (ODict kvs) -> In (key, value) kvs -> key <> "$ref" ->
      deref h value = Some (OList xs) -> forallb (is_dict h) xs = true ->
      In each xs -> ref_at h each v -> ref_at h d v.

Module Pointers.

(** A dict with a key that reads as an integer. *)
Definition numeric_key : json :=
  JDict [("years", JDict [("2024", JStr "leap")])].

End Pointers.

(** ** The reset mode of the command line *)

(** No string twice in the list. *)
Fixpoint distinct (l : list string) : bool :=
  match l with
  | [] => true
  | k :: l' => negb (existsb (String.eqb k) l') && distinct l'
  end.

(** A document no dict of which has a key twice. *)
Fixpoint keys_distinct (j : json) : bool :=
  match j with
  | JList xs => forallb keys_distinct xs
  | JDict kvs =>
      distinct (map fst kvs) &&
      forallb (fun kv => keys_distinct (snd kv)) kvs
  | _ => true
  end.

(** The number of lists and dicts of a document. *)
Fixpoint containers (j : json) : nat :=
  match j with
  | JList xs => S (list_sum (map containers xs))
  | JDict kvs => S (list_sum (map (fun kv => containers (snd kv)) kvs))
  | _ => 0
  end.

(** The loop of the reset mode: every listed file is loaded and saved
    again ([json.load], then [save_dict_to_json] to the same path). *)
Definition reset_jsons (cwd : Path.t) (fs : file_store)
    (json_file_paths : list string) : result file_store :=
  for_each (fun fs file_path =>
    let here := Path.join_resolve cwd file_path in
    data ← read_file fs here;
    let '(h, v) := load_json data [] in
    j ← dump h v;
    Ok (write_file fs here j)) fs json_file_paths.

(** ** Loading a specification, with a location to look for *)

(** What a call of [load_openapi_spec] comes to: the pair it returns; the
    [None] it returns once the loop has been left by [break]; an exception;
    or a prompt that is given no line ([input] raises [EOFError]). *)
Inductive loaded :=
  | Returned (json_schema : val) (open_api_spec : val)
  | ReturnedNone
  | Raised (e : exn)
  | EndOfInput.

(** The loop [while True] of [load_openapi_spec].  [answers] are the lines
    entered at the prompts, in order; only [KeyError] is caught. *)
Fixpoint locate (rl : nat) (h : heap) (open_api_spec : val)
    (schema_location : string) (answers : list string) {struct answers}
  : loaded :=
  match walk_dictionary rl h open_api_spec schema_location with
  | Ok (_, json_schema) => Returned json_schema open_api_spec
  | Raise KeyError =>
      match answers with
      | [] => EndOfInput
      | alternative_key :: rest =>
          if String.eqb alternative_key "" then ReturnedNone
          else locate rl h open_api_spec alternative_key rest
      end
  | Raise e => Raised e
  end.

(** [load_openapi_spec]: the store of the document loaded, and the outcome.
    A location that is [None] or the empty string is no location. *)
Definition load_openapi_spec (rl : nat) (fs : file_store) (spec_path : Path.t)
    (schema_location : option string) (answers : list string)
  : heap * loaded :=
  match read_file fs spec_path with
  | Raise e => ([], Raised e)
  | Ok j =>
      let '(h, open_api_spec) := load_json j [] in
      match schema_location with
      | Some (String c s) =>
          (h, locate rl h open_api_spec (String c s) answers)
      | _ => (h, Returned VNone open_api_spec)
      end
  end.

(** * Properties *)

(** ** Results *)

Lemma bind_Ok {A B} (r : result A) (k : A -> result B) (b : B) :
  r ≫= k = Ok b -> exists a, r = Ok a /\ k a = Ok b.
Proof. destruct r as [a|e]; simpl; [eauto | discriminate]. Qed.

Lemma for_each_app {A S} (body : S -> A -> result S) s xs ys :
  for_each body s (xs ++ ys) = s' ← for_each body s xs; for_each body s' ys.
Proof.
  revert s; induction xs as [|x xs IH]; intros s; simpl; [reflexivity|].
  destruct (body s x) as [s1|e]; simpl; [apply IH | reflexivity].
Qed.

(** An invariant of the loop state carried through a successful loop. *)
Lemma for_each_invariant {A S} (P : S -> Prop) (body : S -> A -> result S) :
  (forall s x s', P s -> body s x = Ok s' -> P s') ->
  forall xs s s', P s -> for_each body s xs = Ok s' -> P s'.
Proof.
  intros Hbody xs; induction xs as [|x xs IH]; simpl; intros s s' Hs H.
  - injection H as <-; exact Hs.
  - apply bind_Ok in H as (s1 & H1 & H2). eauto.
Qed.

(** ** Dicts *)

Module DictFacts.

Lemma get_None_keys {A} k (d : list (string * A)) :
  Dict.get k d = None <-> ~ In k (Dict.keys d).
Proof.
  induction d as [|[k' v] d IH]; simpl; [tauto|].
  destruct (String.eqb_spec k' k) as [->|Hne].
  - split; [discriminate | intros H; exfalso; apply H; now left].
  - rewrite IH. split; [intros H [?|?]; [congruence | tauto] | tauto].
Qed.

Lemma get_set_eq {A} k (v : A) d : Dict.get k (Dict.set k v d) = Some v.
Proof.
  induction d as [|[k' v'] d IH]; simpl.
  - now rewrite String.eqb_refl.
  - destruct (String.eqb_spec k' k) as [->|Hne]; simpl.
    + now rewrite String.eqb_refl.
    + destruct (String.eqb_spec k' k); [congruence | exact IH].
Qed.

Lemma get_set_ne {A} k k' (v : A) d :
  k <> k' -> Dict.get k (Dict.set k' v d) = Dict.get k d.
Proof.
  intros Hne; induction d as [|[k0 v0] d IH]; simpl.
  - destruct (String.eqb_spec k' k); [congruence | reflexivity].
  - destruct (String.eqb_spec k0 k') as [->|Hne0]; simpl.
    + destruct (String.eqb_spec k' k); [congruence | reflexivity].
    + destruct (String.eqb_spec k0 k); [reflexivity | exact IH].
Qed.

Lemma keys_set {A} k (v : A) d x :
  In x (Dict.keys (Dict.set k v d)) <-> x = k \/ In x (Dict.keys d).
Proof.
  induction d as [|[k0 v0] d IH]; simpl.
  - intuition.
  - destruct (String.eqb_spec k0 k) as [->|Hne]; simpl.
    + intuition.
    + rewrite IH. intuition.
Qed.

Lemma NoDup_set {A} k (v : A) d :
  List.NoDup (Dict.keys d) -> List.NoDup (Dict.keys (Dict.set k v d)).
Proof.
  induction d as [|[k0 v0] d IH]; simpl; intros Hd.
  - constructor; [intros [] | constructor].
  - inversion Hd as [|? ? Hnotin Hd']; subst.
    destruct (String.eqb_spec k0 k) as [->|Hne]; simpl.
    + now constructor.
    + constructor; [|now apply IH].
      intros Hin. apply keys_set in Hin as [->|Hin]; [congruence | tauto].
Qed.

Lemma NoDup_update {A} (d other : list (string * A)) :
  List.NoDup (Dict.keys d) -> List.NoDup (Dict.keys (Dict.update d other)).
Proof.
  unfold Dict.update. revert d.
  induction other as [|[k v] o IH]; simpl; intros d Hd; [exact Hd|].
  apply IH, NoDup_set, Hd.
Qed.

Lemma keys_update {A} (d other : list (string * A)) x :
  In x (Dict.keys (Dict.update d other)) <-> In x (Dict.keys d) \/ In x (Dict.keys other).
Proof.
  unfold Dict.update. revert d.
  induction other as [|[k v] o IH]; simpl; intros d; [tauto|].
  rewrite IH, keys_set. intuition.
Qed.

(** A key that [other] does not mention keeps its value in
    [d.update(other)]. *)
Lemma get_update_other {A} k (d other : list (string * A)) :
  Dict.get k other = None -> Dict.get k (Dict.update d other) = Dict.get k d.
Proof.
  unfold Dict.update. revert d.
  induction other as [|[k' v] o IH]; simpl; intros d H; [reflexivity|].
  destruct (String.eqb_spec k' k) as [->|Hne]; [discriminate|].
  rewrite IH by exact H. apply get_set_ne. congruence.
Qed.

(** A key of [other] takes the value [other] gives it. *)
Lemma get_update_here {A} k (v : A) (d other : list (string * A)) :
  List.NoDup (Dict.keys other) -> Dict.get k other = Some v ->
  Dict.get k (Dict.update d other) = Some v.
Proof.
  unfold Dict.update. revert d.
  induction other as [|[k' v'] o IH]; simpl; intros d Hnd H; [discriminate|].
  inversion Hnd as [|? ? Hnotin Hnd']; subst.
  destruct (String.eqb_spec k' k) as [->|Hne].
  - injection H as ->.
    change (Dict.get k (Dict.update (Dict.set k v d) o) = Some v).
    rewrite get_update_other; [apply get_set_eq|].
    now apply get_None_keys.
  - now apply IH.
Qed.

Lemma get_update {A} k (d other : list (string * A)) :
  List.NoDup (Dict.keys other) ->
  Dict.get k (Dict.update d other) =
  match Dict.get k other with
  | Some v => Some v
  | None => Dict.get k d
  end.
Proof.
  intros Hnd. destruct (Dict.get k other) as [v|] eqn:E.
  - now apply get_update_here.
  - now apply get_update_other.
Qed.

(** Writing a dict with distinct Dict.keys into an empty dict gives the dict
    back. *)
Lemma update_fresh {A} (d other : list (string * A)) :
  List.NoDup (Dict.keys (d ++ other)) -> Dict.update d other = d ++ other.
Proof.
  unfold Dict.update. revert d.
  induction other as [|[k v] o IH]; simpl; intros d Hnd.
  - now rewrite app_nil_r.
  - assert (Hset : Dict.set k v d = d ++ [(k, v)]).
    { clear IH. induction d as [|[k0 v0] d IHd]; simpl; [reflexivity|].
      simpl in Hnd. inversion Hnd as [|? ? Hnotin Hnd']; subst.
      destruct (String.eqb_spec k0 k) as [->|Hne].
      - exfalso. apply Hnotin. unfold Dict.keys. rewrite map_app, in_app_iff.
        right; now left.
      - f_equal. now apply IHd. }
    rewrite Hset, IH; rewrite <- app_assoc; [reflexivity | exact Hnd].
Qed.

Lemma update_nil {A} (d : list (string * A)) :
  List.NoDup (Dict.keys d) -> Dict.update [] d = d.
Proof. intros H. now apply (update_fresh [] d). Qed.

End DictFacts.

(** ** The store only grows under copies *)


Lemma extends_refl h : extends h h.
Proof. split; [lia | reflexivity]. Qed.

Lemma extends_trans h1 h2 h3 : extends h1 h2 -> extends h2 h3 -> extends h1 h3.
Proof.
  intros [L1 F1] [L2 F2]. split; [lia|].
  intros l Hl. rewrite F2 by lia. now apply F1.
Qed.

Lemma extends_lookup h h' l o : extends h h' -> h !! l = Some o -> h' !! l = Some o.
Proof.
  intros [_ F] H. rewrite F; [exact H|]. now apply lookup_lt_Some in H.
Qed.

Lemma dict_store_length h l k v : length (dict_store h l k v) = length h.
Proof.
  unfold dict_store. destruct (h !! l) as [[?|?]|]; try reflexivity.
  apply length_insert.
Qed.

Lemma dict_store_other h l k v l' : l' <> l -> dict_store h l k v !! l' = h !! l'.
Proof.
  intros Hne. unfold dict_store. destruct (h !! l) as [[?|?]|]; try reflexivity.
  apply list_lookup_insert_ne. congruence.
Qed.

Lemma list_append_length h l v : length (list_append h l v) = length h.
Proof.
  unfold list_append. destruct (h !! l) as [[?|?]|]; try reflexivity.
  apply length_insert.
Qed.

Lemma list_append_other h l v l' : l' <> l -> list_append h l v !! l' = h !! l'.
Proof.
  intros Hne. unfold list_append. destruct (h !! l) as [[?|?]|]; try reflexivity.
  apply list_lookup_insert_ne. congruence.
Qed.

Lemma deepcopy_extends rl : forall memo h x h' memo' v,
  deepcopy rl memo h x = Ok (h', memo', v) -> extends h h'.
Proof.
  induction rl as [|rl IH]; intros memo h x h' memo' v H;
    destruct x as [| | | | |l]; simpl in H;
    try (injection H as <- _ _; apply extends_refl).
  - destruct (memo_get memo l); [|discriminate].
    injection H as <- _ _; apply extends_refl.
  - destruct (memo_get memo l); [injection H as <- _ _; apply extends_refl|].
    destruct (h !! l) as [[kvs|xs]|]; [| |discriminate].
    + apply bind_Ok in H as ([hf mf] & Hloop & Hret).
      injection Hret as <- _ _.
      pose (P := fun st : heap * list (loc * loc) =>
                   length h < length st.1 /\
                   forall l0, l0 < length h -> st.1 !! l0 = h !! l0).
      enough (HP : P (hf, mf)).
      { destruct HP as [HL HF]. split; [simpl in HL; lia | exact HF]. }
      eapply (for_each_invariant P); [| |exact Hloop].
      * intros [hs ms] [k x] [hs' ms'] [HL HF] Hbody. simpl in Hbody.
        apply bind_Ok in Hbody as ([[h1 m1] v1] & Hcopy & Hret).
        injection Hret as <- <-.
        apply IH in Hcopy as [HL1 HF1]. simpl in *. unfold P; simpl.
        split; [rewrite dict_store_length; lia|].
        intros l0 Hl0. rewrite dict_store_other by lia.
        rewrite HF1 by lia. now apply HF.
      * unfold P; split; simpl; [rewrite length_app; simpl; lia|].
        intros l0 Hl0. now apply lookup_app_l.
    + apply bind_Ok in H as ([hf mf] & Hloop & Hret).
      injection Hret as <- _ _.
      pose (P := fun st : heap * list (loc * loc) =>
                   length h < length st.1 /\
                   forall l0, l0 < length h -> st.1 !! l0 = h !! l0).
      enough (HP : P (hf, mf)).
      { destruct HP as [HL HF]. split; [simpl in HL; lia | exact HF]. }
      eapply (for_each_invariant P); [| |exact Hloop].
      * intros [hs ms] x [hs' ms'] [HL HF] Hbody. simpl in Hbody.
        apply bind_Ok in Hbody as ([[h1 m1] v1] & Hcopy & Hret).
        injection Hret as <- <-.
        apply IH in Hcopy as [HL1 HF1]. simpl in *. unfold P; simpl.
        split; [rewrite list_append_length; lia|].
        intros l0 Hl0. rewrite list_append_other by lia.
        rewrite HF1 by lia. now apply HF.
      * unfold P; split; simpl; [rewrite length_app; simpl; lia|].
        intros l0 Hl0. now apply lookup_app_l.
Qed.

Lemma deep_copy_extends rl h x h' y :
  deep_copy rl h x = Ok (h', y) -> extends h h'.
Proof.
  unfold deep_copy. intros H.
  apply bind_Ok in H as ([[h1 m1] v1] & Hcopy & Hret).
  injection Hret as <- _. eapply deepcopy_extends, Hcopy.
Qed.

Lemma keep_keys_extends rl h a keep h' kept :
  keep_keys rl h a keep = Ok (h', kept) ->
  extends h h' /\ List.NoDup (Dict.keys kept).
Proof.
  unfold keep_keys. intros H.
  destruct keep as [[|k keys]|];
    try (injection H as <- <-; split; [apply extends_refl | constructor]).
  pose (P := fun st : heap * entries =>
               extends h st.1 /\ List.NoDup (Dict.keys st.2)).
  change (P (h', kept)).
  eapply (for_each_invariant P); [| |exact H].
  - intros [hs ks] key [hs' ks'] [HE HN] Hbody. simpl in Hbody.
    destruct (hs !! a) as [[site|?]|];
      try (injection Hbody as <- <-; now split).
    destruct (Dict.get key site);
      [|injection Hbody as <- <-; now split].
    apply bind_Ok in Hbody as ([h1 c] & Hcopy & Hrest).
    apply bind_Ok in Hrest as (items & _ & Hret).
    injection Hret as <- <-. split; simpl.
    + eapply extends_trans; [exact HE|]. eapply deep_copy_extends, Hcopy.
    + now apply DictFacts.NoDup_update.
  - split; [apply extends_refl | constructor].
Qed.

(** ** What the annotation cache holds *)

Lemma cache_body_get rl h c acc f acc' field :
  cache_body rl h c acc f = Ok acc' ->
  Dict.get field acc' =
  if String.eqb f field
  then match captured rl h c f with
       | Some v => Some v
       | None => Dict.get field acc
       end
  else Dict.get field acc.
Proof.
  unfold cache_body, captured. intros H.
  destruct (String.eqb_spec f field) as [<-|Hne].
  - destruct (walk_dictionary rl h c f) as [[p v]|e].
    + destruct (truthy h v); injection H as <-;
        [apply DictFacts.get_set_eq | reflexivity].
    + destruct e; try discriminate. now injection H as <-.
  - destruct (walk_dictionary rl h c f) as [[p v]|e].
    + destruct (truthy h v); injection H as <-;
        [apply DictFacts.get_set_ne; congruence | reflexivity].
    + destruct e; try discriminate. now injection H as <-.
Qed.

Lemma cache_body_NoDup rl h c acc f acc' :
  cache_body rl h c acc f = Ok acc' ->
  List.NoDup (Dict.keys acc) -> List.NoDup (Dict.keys acc').
Proof.
  unfold cache_body. intros H Hnd.
  destruct (walk_dictionary rl h c f) as [[p v]|e].
  - destruct (truthy h v); injection H as <-;
      [now apply DictFacts.NoDup_set | exact Hnd].
  - destruct e; try discriminate. now injection H as <-.
Qed.

Lemma cache_loop_get rl h c field : forall fields acc cached,
  List.NoDup fields ->
  for_each (cache_body rl h c) acc fields = Ok cached ->
  Dict.get field cached =
  if in_dec string_dec field fields
  then match captured rl h c field with
       | Some v => Some v
       | None => Dict.get field acc
       end
  else Dict.get field acc.
Proof.
  induction fields as [|f fs IH]; simpl; intros acc cached Hnd H.
  - now injection H as <-.
  - apply bind_Ok in H as (acc1 & Hb & Hrest).
    inversion Hnd as [|? ? Hnotin Hnd']; subst.
    rewrite (IH _ _ Hnd' Hrest).
    rewrite (cache_body_get _ _ _ _ _ _ field Hb).
    destruct (string_dec f field) as [<-|Hne].
    + rewrite String.eqb_refl.
      destruct (in_dec string_dec f fs); [contradiction|].
      destruct (in_dec string_dec f (f :: fs)) as [_|Hn];
        [reflexivity | exfalso; apply Hn; now left].
    + destruct (String.eqb_spec f field); [contradiction|].
      destruct (in_dec string_dec field fs) as [Hin|Hnin];
        destruct (in_dec string_dec field (f :: fs)) as [Hin'|Hnin'];
        try reflexivity; exfalso; simpl in *; intuition congruence.
Qed.

Lemma fields_to_keep_NoDup : List.NoDup fields_to_keep.
Proof.
  unfold fields_to_keep.
  repeat (constructor; [simpl; intuition discriminate|]). constructor.
Qed.

(** The cache holds exactly the captured value of every field of the
    list, and nothing else. *)
Lemma cache_json_properties_get rl h c cached field :
  cache_json_properties rl h c = Ok cached ->
  Dict.get field (default [] cached) =
  if in_dec string_dec field fields_to_keep then captured rl h c field else None.
Proof.
  unfold cache_json_properties. intros H.
  apply bind_Ok in H as (acc & Hloop & Hret).
  pose proof (cache_loop_get rl h c field _ _ _ fields_to_keep_NoDup Hloop) as Hget.
  simpl Dict.get in Hget at 2 3.
  assert (Hacc : default [] cached = acc).
  { destruct acc; injection Hret as <-; reflexivity. }
  rewrite Hacc, Hget.
  destruct (in_dec string_dec field fields_to_keep); [|reflexivity].
  now destruct (captured rl h c field).
Qed.

Lemma cache_json_properties_NoDup rl h c cached :
  cache_json_properties rl h c = Ok cached ->
  List.NoDup (Dict.keys (default [] cached)).
Proof.
  unfold cache_json_properties. intros H.
  apply bind_Ok in H as (acc & Hloop & Hret).
  assert (Hacc : default [] cached = acc).
  { destruct acc; injection Hret as <-; reflexivity. }
  rewrite Hacc.
  refine (for_each_invariant (fun d => List.NoDup (Dict.keys d))
            _ _ _ [] acc _ Hloop); [|constructor].
  intros s x s' Hs Hb. eapply cache_body_NoDup; eauto.
Qed.

(** ** The merge at one reference site *)

Lemma dict_update_spec h a d other :
  h !! a = Some (ODict d) ->
  dict_update h a other !! a = Some (ODict (Dict.update d other)) /\
  length (dict_update h a other) = length h /\
  forall l, l <> a -> dict_update h a other !! l = h !! l.
Proof.
  intros Ha. unfold dict_update. rewrite Ha.
  pose proof (lookup_lt_Some _ _ _ Ha) as Hlt.
  split; [now apply list_lookup_insert_eq|].
  split; [apply length_insert|].
  intros l Hl. apply list_lookup_insert_ne. congruence.
Qed.

Lemma merge_site_result rl h a value bs keep se x fe h' :
  h !! a = Some (ODict se) ->
  find_sub_schema_by_ref_value bs value = Some (VRef x) ->
  h !! x = Some (ODict fe) -> fe <> [] ->
  merge_site rl h a value bs keep = Ok h' ->
  exists hc c cached hk kept,
    deep_copy rl h (VRef a) = Ok (hc, c) /\
    cache_json_properties rl hc c = Ok cached /\
    keep_keys rl hc a keep = Ok (hk, kept) /\
    h' !! a = Some (ODict (merged_entries
                             (if decide (x = a) then [] else fe) kept cached)) /\
    length h' = length hk /\
    forall l, l <> a -> h' !! l = hk !! l.
Proof.
  intros Ha Hfind Hx Hfe H. unfold merge_site in H. rewrite Hfind in H.
  assert (Ht : truthy h (VRef x) && is_dict h (VRef x) = true).
  { unfold truthy, is_dict; simpl. rewrite Hx. now destruct fe. }
  rewrite Ht in H.
  apply bind_Ok in H as ([hc c] & Hcopy & H).
  apply bind_Ok in H as (cached & Hcache & H).
  apply bind_Ok in H as ([hk kept] & Hkeep & H).
  exists hc, c, cached, hk, kept. repeat (split; [assumption|]).
  pose proof (deep_copy_extends _ _ _ _ _ Hcopy) as E1.
  pose proof (keep_keys_extends _ _ _ _ _ _ Hkeep) as [E2 _].
  pose proof (extends_trans _ _ _ E1 E2) as E.
  pose proof (extends_lookup _ _ _ _ E Ha) as Hka.
  pose proof (extends_lookup _ _ _ _ E Hx) as Hkx.
  pose proof (lookup_lt_Some _ _ _ Hka) as Hlt.
  set (h3 := <[a := ODict []]> hk) in *.
  assert (H3a : h3 !! a = Some (ODict [])) by (now apply list_lookup_insert_eq).
  assert (H3l : length h3 = length hk) by apply length_insert.
  assert (H3o : forall l, l <> a -> h3 !! l = hk !! l).
  { intros l Hl. apply list_lookup_insert_ne. congruence. }
  set (frag := if decide (x = a) then [] else fe).
  assert (Hfrag : dict_entries h3 (VRef x) = frag).
  { unfold dict_entries, frag; simpl. destruct (decide (x = a)) as [->|Hne].
    - now rewrite H3a.
    - now rewrite (H3o _ Hne), Hkx. }
  rewrite Hfrag in H.
  destruct (dict_update_spec _ _ _ frag H3a) as (H4a & H4l & H4o).
  set (h4 := dict_update h3 a frag) in *.
  set (h5 := match kept with [] => h4 | _ :: _ => dict_update h4 a kept end) in *.
  assert (H5 : h5 !! a = Some (ODict (Dict.update (Dict.update [] frag) kept)) /\
               length h5 = length hk /\
               forall l, l <> a -> h5 !! l = hk !! l).
  { unfold h5. destruct kept as [|kv kept'].
    - split; [exact H4a|]. split; [congruence|].
      intros l Hl. rewrite H4o by exact Hl. now apply H3o.
    - destruct (dict_update_spec _ _ _ (kv :: kept') H4a) as (Ea & El & Eo).
      split; [exact Ea|]. split; [congruence|].
      intros l Hl. rewrite Eo, H4o by exact Hl. now apply H3o. }
  destruct H5 as (H5a & H5l & H5o). unfold merged_entries.
  destruct cached as [cd|]; injection H as <-; simpl.
  - destruct (dict_update_spec _ _ _ cd H5a) as (Ea & El & Eo).
    split; [exact Ea|]. split; [congruence|].
    intros l Hl. rewrite Eo by exact Hl. now apply H5o.
  - split; [exact H5a|]. split; [exact H5l | exact H5o].
Qed.

Lemma ref_not_annotation : ~ In "$ref" fields_to_keep.
Proof. unfold fields_to_keep; simpl; intuition discriminate. Qed.

(** C5 (amended): at a reference site where a merge takes place, every field
    of the annotation list whose search in the copy of the site finds a
    value that is true is carried by the merged site with exactly the value
    found, whatever the fragment and the kept entries give for that field:
    the cached fields are written last. *)
Theorem merge_keeps_captured_annotation
    rl h a value bs keep se x fe h' hc c field path v :
  h !! a = Some (ODict se) ->
  find_sub_schema_by_ref_value bs value = Some (VRef x) ->
  h !! x = Some (ODict fe) -> fe <> [] ->
  merge_site rl h a value bs keep = Ok h' ->
  deep_copy rl h (VRef a) = Ok (hc, c) ->
  In field fields_to_keep ->
  walk_dictionary rl hc c field = Ok (path, v) ->
  truthy hc v = true ->
  exists es, h' !! a = Some (ODict es) /\ Dict.get field es = Some v.
Proof.
  intros Ha Hfind Hx Hfe Hm Hcopy Hin Hwalk Htrue.
  destruct (merge_site_result _ _ _ _ _ _ _ _ _ _ Ha Hfind Hx Hfe Hm)
    as (hc0 & c0 & cached & hk & kept & Hcopy0 & Hcache & _ & Hsite & _).
  rewrite Hcopy in Hcopy0. injection Hcopy0 as <- <-.
  eexists; split; [exact Hsite|]. unfold merged_entries.
  apply DictFacts.get_update_here.
  - eapply cache_json_properties_NoDup, Hcache.
  - rewrite (cache_json_properties_get _ _ _ _ field Hcache).
    destruct (in_dec string_dec field fields_to_keep); [|contradiction].
    unfold captured. now rewrite Hwalk, Htrue.
Qed.

(** C6 (amended): after a merge at a site, the site holds at one level the
    entries of the fragment (as read once the site is cleared), of the kept
    entries and of the cached fields, a later layer winning over an earlier
    one; the site has a ["$ref"] key exactly when the fragment or the kept
    entries have one. *)
Theorem merged_site_layers rl h a value bs keep se x fe h' :
  h !! a = Some (ODict se) ->
  find_sub_schema_by_ref_value bs value = Some (VRef x) ->
  h !! x = Some (ODict fe) -> fe <> [] ->
  List.NoDup (Dict.keys fe) ->
  merge_site rl h a value bs keep = Ok h' ->
  exists hc c cached hk kept es fragment,
    fragment = (if decide (x = a) then [] else fe) /\
    deep_copy rl h (VRef a) = Ok (hc, c) /\
    cache_json_properties rl hc c = Ok cached /\
    keep_keys rl hc a keep = Ok (hk, kept) /\
    h' !! a = Some (ODict es) /\
    (forall k, In k (Dict.keys es) <->
               In k (Dict.keys fragment) \/ In k (Dict.keys kept) \/
               In k (Dict.keys (default [] cached))) /\
    (forall k, Dict.get k es =
               match Dict.get k (default [] cached) with
               | Some v => Some v
               | None =>
                   match Dict.get k kept with
                   | Some v => Some v
                   | None => Dict.get k fragment
                   end
               end) /\
    (In "$ref" (Dict.keys es) <->
     In "$ref" (Dict.keys fragment) \/ In "$ref" (Dict.keys kept)).
Proof.
  intros Ha Hfind Hx Hfe Hnd Hm.
  destruct (merge_site_result _ _ _ _ _ _ _ _ _ _ Ha Hfind Hx Hfe Hm)
    as (hc & c & cached & hk & kept & Hcopy & Hcache & Hkeep & Hsite & _).
  exists hc, c, cached, hk, kept.
  eexists; exists (if decide (x = a) then [] else fe).
  split; [reflexivity|]. do 4 (split; [eassumption|]).
  set (fragment := if decide (x = a) then [] else fe).
  assert (Nf : List.NoDup (Dict.keys fragment)).
  { unfold fragment. destruct (decide (x = a)); [constructor | exact Hnd]. }
  pose proof (cache_json_properties_NoDup _ _ _ _ Hcache) as Nc.
  pose proof (keep_keys_extends _ _ _ _ _ _ Hkeep) as [_ Nk].
  assert (Hkeys : forall k,
    In k (Dict.keys (merged_entries fragment kept cached)) <->
    In k (Dict.keys fragment) \/ In k (Dict.keys kept) \/
    In k (Dict.keys (default [] cached))).
  { intros k. unfold merged_entries.
    rewrite !DictFacts.keys_update. simpl. tauto. }
  split; [exact Hkeys|]. split.
  - intros k. unfold merged_entries.
    rewrite (DictFacts.get_update k _ _ Nc).
    destruct (Dict.get k (default [] cached)); [reflexivity|].
    rewrite (DictFacts.get_update k _ _ Nk).
    now rewrite (DictFacts.update_nil _ Nf).
  - rewrite Hkeys. split; [|tauto].
    intros [?|[?|Hc]]; [tauto | tauto |]. exfalso.
    apply ref_not_annotation.
    assert (Hg : Dict.get "$ref" (default [] cached) <> None).
    { intros Hn. now apply DictFacts.get_None_keys in Hn. }
    rewrite (cache_json_properties_get _ _ _ _ "$ref" Hcache) in Hg.
    destruct (in_dec string_dec "$ref" fields_to_keep); [assumption | congruence].
Qed.


Lemma merge_keeps_captured_annotation_witness :
  exists es,
    Samples.merged Samples.annotated 1 !! 0 = Some (ODict es) /\
    Dict.get "nullable" es = Some (VBool true).
Proof.
  apply (merge_keeps_captured_annotation 1000 (Samples.store Samples.annotated)
           0 (VStr "#/x") [Binding "#/x" (VRef 1)] Samples.keep
           [("$ref", VStr "#/x"); ("nullable", VBool true)] 1
           [("type", VStr "string"); ("nullable", VBool false)]
           (Samples.merged Samples.annotated 1)
           (Samples.site_copy Samples.annotated).1
           (Samples.site_copy Samples.annotated).2
           "nullable" "nullable" (VBool true));
    try (vm_compute; reflexivity).
  - discriminate.
  - simpl; tauto.
Defined.

(** C5, as stated, fails: the annotation [nullable: false] of the site is
    found by the search but is not carried by the merged site, which takes
    the fragment's [nullable: true]. *)
Lemma falsy_annotation_overwritten :
  resolved_document 1000 [] [] "/d/a.json" Samples.annotated_false =
  Ok (JDict [("s", JDict [("type", JStr "string"); ("nullable", JBool true)]);
             ("x", JDict [("type", JStr "string"); ("nullable", JBool true)])])
  /\ walk_dictionary 1000 (Samples.site_copy Samples.annotated_false).1
       (Samples.site_copy Samples.annotated_false).2 "nullable"
     = Ok ("nullable", VBool false).
Proof. split; vm_compute; reflexivity. Qed.

Lemma merged_site_layers_witness :
  exists hc c cached hk kept es fragment,
    fragment = [("type", VStr "string"); ("nullable", VBool false)] /\
    deep_copy 1000 (Samples.store Samples.annotated) (VRef 0) = Ok (hc, c) /\
    cache_json_properties 1000 hc c = Ok cached /\
    keep_keys 1000 hc 0 Samples.keep = Ok (hk, kept) /\
    Samples.merged Samples.annotated 1 !! 0 = Some (ODict es) /\
    (forall k, In k (Dict.keys es) <->
               In k (Dict.keys fragment) \/ In k (Dict.keys kept) \/
               In k (Dict.keys (default [] cached))) /\
    (forall k, Dict.get k es =
               match Dict.get k (default [] cached) with
               | Some v => Some v
               | None =>
                   match Dict.get k kept with
                   | Some v => Some v
                   | None => Dict.get k fragment
                   end
               end) /\
    (In "$ref" (Dict.keys es) <->
     In "$ref" (Dict.keys fragment) \/ In "$ref" (Dict.keys kept)).
Proof.
  apply (merged_site_layers 1000 (Samples.store Samples.annotated)
           0 (VStr "#/x") [Binding "#/x" (VRef 1)] Samples.keep
           [("$ref", VStr "#/x"); ("nullable", VBool true)] 1
           [("type", VStr "string"); ("nullable", VBool false)]
           (Samples.merged Samples.annotated 1));
    try (vm_compute; reflexivity).
  - discriminate.
  - repeat (constructor; [simpl; intuition discriminate|]). constructor.
Defined.

(** C6, as stated, fails: the site [s] is merged with the fragment at [a],
    which is itself a reference, and still has a ["$ref"] key afterwards. *)
Lemma merged_site_with_ref :
  resolved_document 1000 [] [] "/d/a.json" Samples.chained =
  Ok (JDict [("s", JDict [("$ref", JStr "#/b")]);
             ("a", JDict [("type", JStr "string")]);
             ("b", JDict [("type", JStr "string")])]).
Proof. vm_compute; reflexivity. Qed.


(** The two ends of C10 on whole documents: [nullable: false] at the site is
    lost to a fragment that omits the field and to one that overrides it,
    [nullable: true] at the site is kept. *)
Example falsy_annotation_documents :
  resolved_document 1000 [] [] "/d/a.json" Samples.annotated_false_omitted =
  Ok (JDict [("s", JDict [("type", JStr "string")]);
             ("x", JDict [("type", JStr "string")])])
  /\ resolved_document 1000 [] [] "/d/a.json" Samples.annotated =
     Ok (JDict [("s", JDict [("type", JStr "string"); ("nullable", JBool true)]);
                ("x", JDict [("type", JStr "string"); ("nullable", JBool false)])]).
Proof. split; vm_compute; reflexivity. Qed.

(** C7: the value of the collection-name key is handed to [dict.update]
    itself.  A string value makes the merge fail; the entries of a dict value
    are spliced into the site and the key itself is lost. *)
Theorem keep_key_not_kept :
  resolved_document 1000 [] [] "/d/a.json" Samples.collection_string =
  Raise ValueError
  /\ resolved_document 1000 [] [] "/d/a.json" Samples.collection_dict =
     Ok (JDict [("s", JDict [("type", JStr "string"); ("name", JStr "users")]);
                ("x", JDict [("type", JStr "string")])]).
Proof. split; vm_compute; reflexivity. Qed.

(** ** Reference kinds *)

Lemma evaluate_ref_string c s :
  evaluate_ref (VStr (String c s)) =
  if Ascii.eqb c "." then
    if PyStr.mem_char "#" s then Ok EXTERNAL_INTERNAL else Ok EXTERNAL
  else if Ascii.eqb c "#" then Ok INTERNAL
  else Raise ValueError.
Proof.
  simpl. destruct (Ascii.eqb_spec c ".") as [->|Hne]; simpl.
  - now destruct (PyStr.mem_char "#" s).
  - reflexivity.
Qed.

Lemma evaluate_ref_not_string v :
  (forall s, v <> VStr s) -> evaluate_ref v = Raise TypeError.
Proof. intros H; destruct v; try reflexivity. now destruct (H s). Qed.

(** The cases of [test_evaluate_ref]. *)
Example test_evaluate_ref :
  evaluate_ref (VStr "nota$reflink") = Raise ValueError /\
  evaluate_ref (VStr "../enums/contract-customer-type.enum.json#/components/schemas/ContractCustomerType")
    = Ok EXTERNAL_INTERNAL /\
  evaluate_ref (VStr "../enums/contract-customer-type.enum.json") = Ok EXTERNAL /\
  evaluate_ref (VStr "#/components/schemas/ContractCustomerType") = Ok INTERNAL /\
  evaluate_ref (VInt 420) = Raise TypeError /\
  evaluate_ref (VStr "#/components/schemas/ContractCustomerType/0") = Ok INTERNAL.
Proof. repeat split; reflexivity. Qed.

(** C9: on the empty string [evaluate_ref] does not reach its
    [ValueError]: reading [ref_value[0]] raises [IndexError], an exception of
    another class than the one raised for the other strings of no known
    shape. *)
Theorem evaluate_ref_empty_string :
  evaluate_ref (VStr "") = Raise IndexError /\
  evaluate_ref (VStr "nota$reflink") = Raise ValueError /\
  evaluate_ref (VStr "") <> evaluate_ref (VStr "nota$reflink").
Proof. repeat split; try reflexivity. discriminate. Qed.

(** ** The scheduler *)

Lemma remove_first_length f l l' :
  remove_first f l = Ok l' -> length l = S (length l').
Proof.
  revert l'; induction l as [|x l IH]; simpl; intros l' H; [discriminate|].
  destruct (String.eqb x f); [now injection H as <-|].
  apply bind_Ok in H as (l'' & H1 & H2). injection H2 as <-.
  simpl. f_equal. now apply IH.
Qed.

Lemma process_file_deferred rl cwd st f st' :
  process_file rl cwd st f = Ok st' ->
  length (deferred_files st') <= length (deferred_files st).
Proof.
  unfold process_file. intros H.
  apply bind_Ok in H as (j & _ & H).
  destruct (load_json j []) as [h0 src].
  apply bind_Ok in H as (refs & _ & H).
  destruct refs as [|r refs].
  - apply bind_Ok in H as (d & Hd & H). injection H as <-. simpl.
    apply remove_first_length in Hd. lia.
  - apply bind_Ok in H as ([[[h1 subs] oas] b] & _ & H).
    destruct subs as [|s subs]; [injection H as <-; simpl; lia|].
    apply bind_Ok in H as (h2 & _ & H).
    apply bind_Ok in H as (res & _ & H).
    apply bind_Ok in H as (still & _ & H).
    destruct still.
    + apply bind_Ok in H as (d & Hd & H). injection H as <-. simpl.
      apply remove_first_length in Hd. lia.
    + injection H as <-. simpl. lia.
Qed.

(** The bound on the iterations of [for_deferred] in [pass] is never the
    reason the loop ends: more iterations change nothing. *)
Lemma for_deferred_enough rl cwd : forall n i st,
  length (deferred_files st) <= i + n ->
  for_deferred rl cwd (S n) i st = for_deferred rl cwd n i st.
Proof.
  induction n as [|n IH]; intros i st Hlen.
  - simpl. destruct (deferred_files st !! i) eqn:E; [|reflexivity].
    apply lookup_lt_Some in E. lia.
  - change (for_deferred rl cwd (S (S n)) i st) with
      (match deferred_files st !! i with
       | None => Ok st
       | Some f => st' ← process_file rl cwd st f; for_deferred rl cwd (S n) (S i) st'
       end).
    change (for_deferred rl cwd (S n) i st) with
      (match deferred_files st !! i with
       | None => Ok st
       | Some f => st' ← process_file rl cwd st f; for_deferred rl cwd n (S i) st'
       end).
    destruct (deferred_files st !! i) as [f|]; [|reflexivity].
    destruct (process_file rl cwd st f) as [st'|e] eqn:E; [|reflexivity].
    simpl. apply IH. apply process_file_deferred in E. lia.
Qed.

(** The loop returns only from a state with nothing deferred. *)
Lemma resolve_loop_returns rl cwd : forall passes st st',
  resolve_loop rl cwd passes st = Some (Ok st') -> deferred_files st' = [].
Proof.
  induction passes as [|p IH]; intros st st' H; simpl in H.
  - destruct (deferred_files st) eqn:E; [|discriminate].
    now injection H as <-.
  - destruct (deferred_files st) eqn:E; [now injection H as <-|].
    destruct (pass rl cwd st) as [st1|e]; [eauto | discriminate].
Qed.

Lemma resolve_loop_step rl cwd passes st :
  deferred_files st <> [] ->
  resolve_loop rl cwd (S passes) st =
  match pass rl cwd st with
  | Ok st' => resolve_loop rl cwd passes st'
  | Raise e => Some (Raise e)
  end.
Proof. intros H. simpl. destruct (deferred_files st); [contradiction | reflexivity]. Qed.

Lemma resolve_loop_fixed_point rl cwd st :
  pass rl cwd st = Ok st -> deferred_files st <> [] ->
  forall passes, resolve_loop rl cwd passes st = None.
Proof.
  intros Hpass Hne passes. induction passes as [|p IH]; simpl.
  - destruct (deferred_files st); [contradiction | reflexivity].
  - destruct (deferred_files st); [contradiction|]. now rewrite Hpass.
Qed.

(** C1: a run over a single file whose only reference is internal does not
    remove the file from the deferred list: once the document is merged and
    written, the check for remaining references reads the variable
    [oas_spec], which no external load has bound, and the run ends with
    [UnboundLocalError].  The document computed for the site [a] is
    the expected one.  When the reference is at the root of the document the
    run ends in the same way, and the document written has lost [defs], the
    site that is cleared being the root. *)
Theorem internal_only_file_raises :
  (forall passes,
     resolve_references 1000 [] (S passes)
       [(["d"; "a.json"], Runs.internal_nested)] ["/d/a.json"]
     = Some (Raise UnboundLocalError)) /\
  resolved_document 1000 [] [] "/d/a.json" Runs.internal_nested
  = Ok (JDict [("a", JDict [("type", JStr "string")]);
               ("defs", JDict [("x", JDict [("type", JStr "string")])])]) /\
  resolve_references 1000 [] 1 Runs.internal_files ["/d/a.json"]
  = Some (Raise UnboundLocalError) /\
  resolved_document 1000 [] [] "/d/a.json" Runs.internal_only
  = Ok (JDict [("type", JStr "string")]).
Proof.
  split; [|repeat split; vm_compute; reflexivity].
  intros passes. unfold resolve_references.
  assert (H : pass 1000 [] (State [(["d"; "a.json"], Runs.internal_nested)]
                              ["/d/a.json"] None)
              = Raise UnboundLocalError) by (vm_compute; reflexivity).
  rewrite resolve_loop_step by discriminate. now rewrite H.
Qed.

(** C2: a file whose reference is of the external kind is never resolved:
    no sub schema is gathered for it, a pass leaves it as it is in the
    deferred list, and the run does not end. *)
Theorem external_reference_never_resolved :
  pass 1000 [] (State Runs.external_files ["/d/a.json"; "/d/b.json"] None)
  = Ok (State Runs.external_files ["/d/a.json"] None) /\
  pass 1000 [] (State Runs.external_files ["/d/a.json"] None)
  = Ok (State Runs.external_files ["/d/a.json"] None) /\
  forall passes,
    resolve_references 1000 [] passes Runs.external_files
      ["/d/a.json"; "/d/b.json"] = None.
Proof.
  assert (H1 : pass 1000 [] (State Runs.external_files ["/d/a.json"; "/d/b.json"] None)
               = Ok (State Runs.external_files ["/d/a.json"] None))
    by (vm_compute; reflexivity).
  assert (H2 : pass 1000 [] (State Runs.external_files ["/d/a.json"] None)
               = Ok (State Runs.external_files ["/d/a.json"] None))
    by (vm_compute; reflexivity).
  split; [exact H1|]. split; [exact H2|].
  intros [|p]; [reflexivity|].
  unfold resolve_references. rewrite resolve_loop_step by discriminate.
  rewrite H1. apply resolve_loop_fixed_point; [exact H2 | discriminate].
Qed.

(** C4 (amended): the loop of [resolve_references] has no test of progress.
    From a state that a pass leaves unchanged with files still deferred, no
    number of passes ends the run. *)
Theorem no_progress_never_stops rl cwd st :
  pass rl cwd st = Ok st -> deferred_files st <> [] ->
  forall passes, resolve_loop rl cwd passes st = None.
Proof.
  intros Hpass Hne. now apply resolve_loop_fixed_point.
Qed.

Lemma no_progress_never_stops_witness :
  resolve_loop 1000 [] 1000 Runs.cyclic_stuck = None.
Proof.
  apply (no_progress_never_stops 1000 [] Runs.cyclic_stuck).
  - vm_compute; reflexivity.
  - vm_compute; discriminate.
Defined.

(** C4, as stated, fails: the run over a file that points into itself
    through its own path never ends. *)
Lemma cyclic_run_never_stops :
  ~ exists passes r,
      resolve_references 1000 [] passes Runs.cyclic_files ["/d/a.json"] = Some r.
Proof.
  intros (passes & r & H). revert H.
  assert (H1 : pass 1000 [] (State Runs.cyclic_files ["/d/a.json"] None)
               = Ok Runs.cyclic_stuck) by (vm_compute; reflexivity).
  assert (H2 : pass 1000 [] Runs.cyclic_stuck = Ok Runs.cyclic_stuck)
    by (vm_compute; reflexivity).
  destruct passes as [|p]; [discriminate|].
  unfold resolve_references. rewrite resolve_loop_step by discriminate.
  rewrite H1.
  rewrite (resolve_loop_fixed_point 1000 [] Runs.cyclic_stuck H2);
    [discriminate | vm_compute; discriminate].
Qed.

(** ** External references with a pointer *)




(** ** Strings and pointers *)

Module PyStrFacts.
Import PyStr.

Lemma app_nil (b : string) : "" +:+ b = b.
Proof. reflexivity. Qed.

Lemma app_cons x (a b : string) : String x a +:+ b = String x (a +:+ b).
Proof. reflexivity. Qed.

Lemma app_assoc (a b c : string) : (a +:+ b) +:+ c = a +:+ (b +:+ c).
Proof.
  induction a as [|x a IH]; [reflexivity|].
  rewrite !app_cons. f_equal. exact IH.
Qed.

Lemma lower_app a b : lower (a +:+ b) = lower a +:+ lower b.
Proof.
  induction a as [|x a IH]; [reflexivity|].
  rewrite app_cons. simpl. rewrite app_cons. f_equal. exact IH.
Qed.

Lemma starts_with_app n post : starts_with n (n +:+ post) = true.
Proof.
  induction n as [|x n IH]; [reflexivity|].
  rewrite app_cons. simpl. now rewrite Ascii.eqb_refl, IH.
Qed.

Lemma contains_app n pre post : contains n (pre +:+ n +:+ post) = true.
Proof.
  induction pre as [|x pre IH].
  - rewrite app_nil.
    destruct (n +:+ post) eqn:E; simpl; rewrite <- E, starts_with_app; reflexivity.
  - rewrite app_cons. simpl. rewrite IH. apply orb_true_r.
Qed.

Lemma split_not_nil sep s : split sep s <> [].
Proof.
  destruct s as [|c s]; simpl; [discriminate|].
  destruct (Ascii.eqb c sep); [discriminate|].
  destruct (split sep s); discriminate.
Qed.

Lemma join_cons sep w ws :
  ws <> [] -> join sep (w :: ws) = w +:+ String sep (join sep ws).
Proof. destruct ws; [contradiction | reflexivity]. Qed.

Lemma join_split sep s : join sep (split sep s) = s.
Proof.
  induction s as [|c s IH]; [reflexivity|]. simpl.
  destruct (Ascii.eqb_spec c sep) as [->|Hne].
  - rewrite join_cons by apply split_not_nil. simpl. now rewrite IH.
  - pose proof (split_not_nil sep s) as Hnn.
    destruct (split sep s) as [|w ws]; [contradiction|].
    destruct ws as [|w' ws]; simpl in *; now rewrite <- IH.
Qed.

(** A segment that is not the last one is followed by the separator, and
    preceded by whatever precedes the segments, then the separator. *)
Lemma join_middle sep k l2 : l2 <> [] -> forall l1 x,
  exists pre post,
    x +:+ String sep (join sep (l1 ++ k :: l2))
    = pre +:+ String sep (k +:+ String sep post).
Proof.
  intros Hl2. induction l1 as [|w l1 IH]; intros x.
  - exists x, (join sep l2). simpl app. now rewrite join_cons.
  - destruct (IH (x +:+ String sep w)) as (pre & post & E).
    exists pre, post. rewrite <- E. simpl app.
    rewrite join_cons by (destruct l1; discriminate).
    rewrite !app_assoc. reflexivity.
Qed.

Lemma in_removelast {A} (k : A) l :
  In k (removelast l) -> exists l1 l2, l = l1 ++ k :: l2 /\ l2 <> [].
Proof.
  induction l as [|x l IH]; simpl; [intros []|].
  destruct l as [|y l]; [intros []|].
  intros [<-|Hin].
  - exists [], (y :: l). split; [reflexivity | discriminate].
  - destruct (IH Hin) as (l1 & l2 & E & Hne).
    exists (x :: l1), l2. split; [simpl; now rewrite E | exact Hne].
Qed.

(** In a pointer ["#/" rest], a segment before the last one stands between
    two slashes. *)
Lemma segment_between_slashes rest k :
  In k (removelast (split "/" rest)) ->
  exists pre post, "#/" +:+ rest = pre +:+ "/" +:+ k +:+ "/" +:+ post.
Proof.
  intros Hin. apply in_removelast in Hin as (l1 & l2 & E & Hne).
  destruct (join_middle "/" k l2 Hne l1 "#") as (pre & post & Ej).
  exists pre, post. rewrite <- E, join_split in Ej. exact Ej.
Qed.

Lemma enum_segment_found rest k :
  In k (removelast (split "/" rest)) -> lower k = "enum" ->
  contains "/enum/" (lower ("#/" +:+ rest)) = true.
Proof.
  intros Hin Hk. destruct (segment_between_slashes rest k Hin) as (pre & post & E).
  rewrite E, !lower_app, Hk.
  change (lower "/") with "/".
  change ("/" +:+ "enum" +:+ "/" +:+ lower post) with ("/enum/" +:+ lower post).
  apply contains_app.
Qed.

(** *** The last character of a string that [int] accepts *)

Lemma last_char_cons c s :
  s <> "" -> last_char (String c s) = last_char s.
Proof. destruct s; [contradiction | reflexivity]. Qed.

Lemma digits_last : forall t acc b z,
  digits t acc b = Some z ->
  (t = "" /\ b = true) \/
  exists d, last_char t = Some d /\ is_digit d = true.
Proof.
  induction t as [|c t IH]; simpl; intros acc b z H.
  - destruct b; [now left | discriminate].
  - right. destruct (is_digit c) eqn:Ec.
    + destruct (IH _ _ _ H) as [[-> _]|(d & Hd & Hdig)]; [now exists c|].
      exists d. split; [|exact Hdig].
      destruct t; [discriminate | exact Hd].
    + destruct (Ascii.eqb c "_"); [|discriminate].
      destruct b; [|discriminate].
      destruct t as [|d t]; [discriminate|].
      destruct (is_digit d); [|discriminate].
      destruct (IH _ _ _ H) as [[E _]|(d' & Hd & Hdig)]; [discriminate|].
      exists d'. split; [exact Hd | exact Hdig].
Qed.

Lemma skip_trailing_empty : forall u,
  skip_trailing u = "" ->
  u = "" \/ exists d, last_char u = Some d /\ is_int_blank d = true.
Proof.
  induction u as [|c u IH]; simpl; intros H; [now left|]. right.
  destruct (skip_trailing u) eqn:Er; [|discriminate].
  destruct (is_int_blank c) eqn:Ec; [|discriminate].
  destruct (IH eq_refl) as [->|(d & Hd & Hs)]; [now exists c|].
  exists d. split; [|exact Hs]. destruct u; [discriminate | exact Hd].
Qed.

Lemma skip_trailing_last : forall u x,
  skip_trailing u = x -> x <> "" ->
  exists c, last_char u = Some c /\
            (last_char x = Some c \/ is_int_blank c = true).
Proof.
  induction u as [|c u IH]; simpl; intros x H Hx; [congruence|].
  destruct (skip_trailing u) as [|r0 r] eqn:Er.
  - destruct (is_int_blank c) eqn:Ec; [congruence|]. subst x.
    destruct (skip_trailing_empty u Er) as [->|(d & Hd & Hs)].
    + exists c. split; [reflexivity | now left].
    + exists d. split; [|now right]. destruct u; [discriminate | exact Hd].
  - subst x. destruct (IH (String r0 r) eq_refl) as (d & Hd & Hor); [discriminate|].
    exists d. split.
    + destruct u; [discriminate | exact Hd].
    + destruct Hor as [Hl|Hs]; [left | now right].
      rewrite last_char_cons by discriminate. exact Hl.
Qed.

Lemma skip_leading_last : forall s,
  skip_leading s <> "" -> last_char s = last_char (skip_leading s).
Proof.
  induction s as [|c s IH]; simpl; intros H; [reflexivity|].
  destruct (is_int_blank c); [|reflexivity].
  rewrite <- (IH H). destruct s; [now destruct H | reflexivity].
Qed.

Lemma digit_not_special c : is_digit c = true -> is_special c = false.
Proof. unfold is_special. intros ->. now rewrite orb_true_r. Qed.

Lemma space_not_special c : is_space c = true -> is_special c = false.
Proof. unfold is_special. intros ->. now rewrite orb_true_r. Qed.

(** Every blank of [int] is white space for [\s]. *)
Lemma int_blank_space c : is_int_blank c = true -> is_space c = true.
Proof.
  unfold is_int_blank, is_space. cbv zeta.
  intros H. apply orb_true_iff in H as [H|H]; [|now rewrite H, orb_true_r].
  apply orb_true_iff in H as [H|H]; [|now rewrite H, orb_true_r].
  apply orb_true_iff in H as [H|H]; [now rewrite H|].
  apply Nat.eqb_eq in H. rewrite H. reflexivity.
Qed.

(** A string that [int] accepts ends in a digit or in a blank. *)
Lemma to_int_last s i :
  to_int s = Some i ->
  exists c, last_char s = Some c /\ is_special c = false.
Proof.
  unfold to_int, skip_blanks. intros H.
  destruct (int_max_str_digits <? _)%nat; [discriminate|].
  destruct (skip_trailing (skip_leading s)) as [|c t] eqn:Es; [discriminate|].
  assert (Hd : exists d, last_char (String c t) = Some d /\ is_digit d = true).
  { destruct (Ascii.eqb c "-") eqn:E1; [|destruct (Ascii.eqb c "+") eqn:E2].
    - destruct (digits t 0 false) as [z|] eqn:Ed; [|discriminate].
      destruct (digits_last _ _ _ _ Ed) as [[_ ?]|(d & Hd & Hdig)]; [discriminate|].
      exists d. split; [|exact Hdig].
      destruct t; [discriminate | exact Hd].
    - destruct (digits_last _ _ _ _ H) as [[_ ?]|(d & Hd & Hdig)]; [discriminate|].
      exists d. split; [|exact Hdig].
      destruct t; [discriminate | exact Hd].
    - destruct (digits_last _ _ _ _ H) as [[? _]|(d & Hd & Hdig)]; [discriminate|].
      now exists d. }
  destruct Hd as (d & Hd & Hdig).
  destruct (skip_trailing_last _ _ Es) as (c' & Hc' & Hor); [discriminate|].
  exists c'. split.
  - rewrite skip_leading_last; [exact Hc'|].
    intros E. rewrite E in Hc'. discriminate.
  - destruct Hor as [Hl|Hs]; [|now apply space_not_special, int_blank_space].
    rewrite Hd in Hl. injection Hl as <-. now apply digit_not_special.
Qed.

Lemma last_from_last_char c s d :
  last_char s = Some d -> last_from c s = d.
Proof.
  revert c; induction s as [|x s IH]; intros c H; [discriminate|].
  simpl. destruct s as [|y s]; [now injection H as <-|].
  apply IH. exact H.
Qed.

Lemma last_char_app a b d :
  last_char b = Some d -> last_char (a +:+ b) = Some d.
Proof.
  intros H. induction a as [|x a IH]; [exact H|]. rewrite app_cons.
  rewrite last_char_cons; [exact IH|].
  intros E. rewrite E in IH. discriminate.
Qed.

Lemma last_char_join sep l w d :
  last l = Some w -> last_char w = Some d -> last_char (join sep l) = Some d.
Proof.
  intros Hl Hw. induction l as [|x l IH]; [discriminate|].
  destruct l as [|y l].
  - simpl in Hl. injection Hl as ->. exact Hw.
  - rewrite join_cons by discriminate.
    apply last_char_app. rewrite last_char_cons; [apply IH, Hl|].
    intros E. specialize (IH Hl). rewrite E in IH. discriminate.
Qed.

End PyStrFacts.

Lemma targeting_list_item l i keys :
  _is_targeting_list_item l = (Some i, keys) ->
  exists w, last l = Some w /\ PyStr.to_int w = Some i /\ keys = removelast l.
Proof.
  unfold _is_targeting_list_item. intros H.
  destruct (last l) as [w|]; [|discriminate].
  destruct (PyStr.to_int w) as [z|] eqn:E; [|discriminate].
  injection H as -> <-. now exists w.
Qed.

(** C8: for a pointer ["#/..."] that carries a list index and has a segment
    [enum] (in any case) among the segments before the index,
    [fetch_value_from_ref] requires the value the traversal ends on to be a
    list ([TypeError] otherwise) and returns a new dict
    [{"enum": [xs[i]], "type": t}], [t] being ["number"] when every element
    of the list is an [int] and ["string"] otherwise; an index outside the
    list is an [IndexError]. *)
Theorem enum_member_fragment h rest data i keys current_output :
  _is_targeting_list_item (PyStr.split "/" rest) = (Some i, keys) ->
  (exists k, In k keys /\ PyStr.lower k = "enum") ->
  traverse h (Some i) keys data = Ok current_output ->
  fetch_value_from_ref h (VStr ("#/" +:+ rest)) data =
  match deref h current_output with
  | Some (OList xs) =>
      match py_index xs i with
      | Some x =>
          Ok ((h ++ [OList [x]]) ++
              [ODict [("enum", VRef (length h));
                      ("type", VStr (if forallb is_int xs
                                     then "number" else "string"))]],
              VRef (S (length h)))
      | None => Raise IndexError
      end
  | _ => Raise TypeError
  end.
Proof.
  intros Htarget (k & Hk & Hlow) Htraverse.
  pose proof (targeting_list_item _ _ _ Htarget) as (w & Hlast & Hint & Hkeys).
  destruct (PyStrFacts.to_int_last _ _ Hint) as (c & Hc & Hspecial).
  assert (Hrest : PyStr.last_char rest = Some c).
  { rewrite <- (PyStrFacts.join_split "/" rest).
    eapply PyStrFacts.last_char_join; eassumption. }
  assert (Henum : PyStr.contains "/enum/" (PyStr.lower ("#/" +:+ rest)) = true).
  { apply (PyStrFacts.enum_segment_found rest k); [now rewrite <- Hkeys | exact Hlow]. }
  change ("#/" +:+ rest) with (String "#" (String "/" rest)) in *.
  unfold fetch_value_from_ref.
  change (Ascii.eqb "#" "#") with true. cbn [negb].
  change (last_from "#" (String "/" rest)) with (last_from "/" rest).
  rewrite (PyStrFacts.last_from_last_char _ _ _ Hrest), Hspecial.
  change (PyStr.drop 2 (String "#" (String "/" rest))) with rest.
  rewrite Htarget, Htraverse. cbn [mbind result_bind].
  rewrite Henum.
  destruct (deref h current_output) as [[kvs|xs]|]; try reflexivity.
  destruct (py_index xs i) as [x|]; [|reflexivity].
  unfold alloc. rewrite length_app, Nat.add_1_r. reflexivity.
Qed.

(** The enum case of [test_fetch_value_from_ref], through the theorem. *)
Lemma enum_member_fragment_witness :
  fetch_value_from_ref (load_json Runs.units []).1
    (VStr ("#/" +:+ "key2/nested_key4/enum/0")) (load_json Runs.units []).2 =
  Ok (((load_json Runs.units []).1 ++ [OList [VStr "KG"]]) ++
      [ODict [("enum", VRef 4); ("type", VStr "string")]], VRef 5).
Proof.
  refine (eq_trans
            (enum_member_fragment (load_json Runs.units []).1
               "key2/nested_key4/enum/0" (load_json Runs.units []).2 0
               ["key2"; "nested_key4"; "enum"] (VRef 0) _ _ _) _).
  - vm_compute; reflexivity.
  - exists "enum". split; [simpl; tauto | reflexivity].
  - vm_compute; reflexivity.
  - vm_compute; reflexivity.
Defined.

(** The two instances the specification gives, read back as documents. *)
Example enum_member_examples :
  Runs.located "#/key2/nested_key4/enum/0" Runs.units
  = Ok (JDict [("enum", JList [JStr "KG"]); ("type", JStr "string")]) /\
  Runs.located "#/sizes/enum/1" Runs.sizes
  = Ok (JDict [("enum", JList [JInt 20]); ("type", JStr "number")]) /\
  Runs.located "#/key2/nested_key4/Enum/-1" Runs.units = Raise KeyError /\
  Runs.located "#/key2/nested_key4/enum/7" Runs.units = Raise IndexError /\
  Runs.located "#/key2/enum/0" Runs.units = Raise KeyError /\
  Runs.located "#/sizes/0" Runs.sizes = Raise KeyError.
Proof. repeat split; vm_compute; reflexivity. Qed.
Example to_int_samples :
  PyStr.to_int "3" = Some 3%Z /\ PyStr.to_int "-1" = Some (-1)%Z /\
  PyStr.to_int " 0_7 " = Some 7%Z /\ PyStr.to_int "x" = None /\
  PyStr.to_int "" = None /\ PyStr.to_int "1__0" = None /\
  PyStr.to_int "+" = None /\ PyStr.to_int "inner_key2" = None.
Proof. repeat split; reflexivity. Qed.

(** The separators 28..31 pass the test on the last character of a pointer
    but are no blanks for [int]; a literal of more than
    [int_max_str_digits] digits is refused. *)
Example to_int_separators :
  PyStr.is_special "031" = false /\
  PyStr.to_int (String "7" (String "031" "")) = None /\
  PyStr.to_int (String "028" "7") = None /\
  PyStr.to_int (String "160" (String "7" (String "133" ""))) = Some 7%Z /\
  PyStr.to_int (String "009" (String "7" (String "013" ""))) = Some 7%Z.
Proof. repeat split; vm_compute; reflexivity. Qed.

Example to_int_digit_limit :
  PyStr.to_int (string_of_list_ascii (List.repeat "1"%char 4300)) <> None /\
  PyStr.to_int (string_of_list_ascii (List.repeat "1"%char 4301)) = None.
Proof. split; [vm_compute; discriminate | vm_compute; reflexivity]. Qed.

(** A last segment that ends in a separator is no list index: it stays a
    key, of a dict that has it or of a list that cannot have it. *)
Example separator_segment_is_a_key :
  let seg := String "7" (String "031" "") in
  Runs.located ("#/enum/" +:+ seg)
    (JDict [("enum", JList [JStr "a"; JStr "b"; JStr "c"; JStr "d";
                            JStr "e"; JStr "f"; JStr "g"; JStr "h"])])
  = Raise TypeError /\
  Runs.located ("#/a/" +:+ seg) (JDict [("a", JDict [(seg, JStr "v")])])
  = Ok (JStr "v") /\
  Runs.located "#/enum/7"
    (JDict [("enum", JList [JStr "a"; JStr "b"; JStr "c"; JStr "d";
                            JStr "e"; JStr "f"; JStr "g"; JStr "h"])])
  = Ok (JDict [("enum", JList [JStr "h"]); ("type", JStr "string")]).
Proof. repeat split; vm_compute; reflexivity. Qed.

Example split_samples :
  PyStr.split "/" "a/b/3" = ["a"; "b"; "3"] /\
  PyStr.split "/" "" = [""] /\
  PyStr.split "#" "../e.json#/c/d" = ["../e.json"; "/c/d"] /\
  PyStr.split "/" "a//" = ["a"; ""; ""].
Proof. repeat split; reflexivity. Qed.

(** ** Well-formed stores

    Every operation of the model keeps the store well formed. *)


Lemma wf_store_alloc h o : wf_store h -> wf_obj o -> wf_store (alloc h o).1.
Proof. intros Hh Ho. apply Forall_app. split; [exact Hh | now constructor]. Qed.

Lemma wf_store_insert h l o : wf_store h -> wf_obj o -> wf_store (<[l := o]> h).
Proof. intros Hh Ho. now apply Forall_insert. Qed.

Lemma wf_store_lookup h l kvs :
  wf_store h -> h !! l = Some (ODict kvs) -> List.NoDup (Dict.keys kvs).
Proof. intros Hh Hl. exact (proj1 (Forall_lookup _ _) Hh l _ Hl). Qed.

Lemma load_json_wf j : forall h, wf_store h -> wf_store (load_json j h).1.
Proof.
  induction j as [| | | | |xs IH|kvs IH] using json_nested_ind;
    intros h Hh; try exact Hh.
  - simpl.
    match goal with |- context [?go xs h []] => set (g := go) end.
    assert (Hgo : forall xs, Forall (fun j => forall h, wf_store h ->
                                         wf_store (load_json j h).1) xs ->
                  forall h acc, wf_store h -> wf_store (g xs h acc).1).
    { clear. induction xs as [|x xs IHxs]; intros HF h acc Hh; [exact Hh|].
      inversion HF as [|? ? Hx HF']; subst. simpl.
      destruct (load_json x h) as [h1 v] eqn:E.
      apply IHxs; [exact HF'|]. specialize (Hx h Hh). now rewrite E in Hx. }
    specialize (Hgo xs IH h [] Hh).
    destruct (g xs h []) as [h1 vs]. now apply wf_store_alloc.
  - simpl.
    match goal with |- context [?go kvs h []] => set (g := go) end.
    assert (Hgo : forall kvs, Forall (fun kv => forall h, wf_store h ->
                                          wf_store (load_json (snd kv) h).1) kvs ->
                  forall h acc, wf_store h -> List.NoDup (Dict.keys acc) ->
                    wf_store (g kvs h acc).1 /\
                    List.NoDup (Dict.keys (g kvs h acc).2)).
    { clear. induction kvs as [|[k x] kvs IHk]; intros HF h acc Hh Hacc;
        [now split|].
      inversion HF as [|? ? Hx HF']; subst. simpl in *.
      destruct (load_json x h) as [h1 v] eqn:E.
      apply IHk; [exact HF'| |now apply DictFacts.NoDup_set].
      specialize (Hx h Hh). now rewrite E in Hx. }
    destruct (Hgo kvs IH h [] Hh) as [H1 H2]; [constructor|].
    destruct (g kvs h []) as [h1 es]. now apply wf_store_alloc.
Qed.

Lemma dict_store_wf h l k v : wf_store h -> wf_store (dict_store h l k v).
Proof.
  intros Hh. unfold dict_store. destruct (h !! l) as [[kvs|xs]|] eqn:E; try exact Hh.
  apply wf_store_insert; [exact Hh|].
  apply DictFacts.NoDup_set. eapply wf_store_lookup; eassumption.
Qed.

Lemma list_append_wf h l v : wf_store h -> wf_store (list_append h l v).
Proof.
  intros Hh. unfold list_append. destruct (h !! l) as [[kvs|xs]|]; try exact Hh.
  now apply wf_store_insert.
Qed.

Lemma dict_update_wf h a other : wf_store h -> wf_store (dict_update h a other).
Proof.
  intros Hh. unfold dict_update. destruct (h !! a) as [[kvs|xs]|] eqn:E; try exact Hh.
  apply wf_store_insert; [exact Hh|].
  apply DictFacts.NoDup_update. eapply wf_store_lookup; eassumption.
Qed.

Lemma deepcopy_wf rl : forall memo h x h' memo' v,
  deepcopy rl memo h x = Ok (h', memo', v) -> wf_store h -> wf_store h'.
Proof.
  induction rl as [|rl IH]; intros memo h x h' memo' v H Hh;
    destruct x as [| | | | |l]; simpl in H;
    try (injection H as <- _ _; exact Hh).
  - destruct (memo_get memo l); [|discriminate].
    injection H as <- _ _; exact Hh.
  - destruct (memo_get memo l); [injection H as <- _ _; exact Hh|].
    destruct (h !! l) as [[kvs|xs]|]; [| |discriminate];
      apply bind_Ok in H as ([hf mf] & Hloop & Hret);
      injection Hret as <- _ _;
      refine (for_each_invariant
                (fun st : list obj * list (nat * nat) => wf_store st.1)
                _ _ _ _ (hf, mf) _ Hloop).
    + intros [hs ms] [k y] [hs' ms'] Hs Hbody. simpl in *.
      apply bind_Ok in Hbody as ([[h1 m1] v1] & Hcopy & Hret).
      injection Hret as <- <-. apply dict_store_wf. eapply IH; eassumption.
    + simpl. apply (wf_store_alloc h (ODict [])); [exact Hh | constructor].
    + intros [hs ms] y [hs' ms'] Hs Hbody. simpl in *.
      apply bind_Ok in Hbody as ([[h1 m1] v1] & Hcopy & Hret).
      injection Hret as <- <-. apply list_append_wf. eapply IH; eassumption.
    + simpl. now apply (wf_store_alloc h (OList [])).
Qed.

Lemma deep_copy_wf rl h x h' y :
  deep_copy rl h x = Ok (h', y) -> wf_store h -> wf_store h'.
Proof.
  unfold deep_copy. intros H.
  apply bind_Ok in H as ([[h1 m1] v1] & Hcopy & Hret).
  injection Hret as <- _. eapply deepcopy_wf, Hcopy.
Qed.

Lemma keep_keys_wf rl h a keep h' kept :
  keep_keys rl h a keep = Ok (h', kept) -> wf_store h -> wf_store h'.
Proof.
  unfold keep_keys. intros H Hh.
  destruct keep as [[|k keys]|]; try (injection H as <- _; exact Hh).
  refine (for_each_invariant
            (fun st : list obj * list (string * val) => wf_store st.1)
            _ _ _ (h, []) (h', kept) Hh H).
  intros [hs ks] key [hs' ks'] Hs Hbody. simpl in *.
  destruct (hs !! a) as [[site|?]|]; try (injection Hbody as <- _; exact Hs).
  destruct (Dict.get key site); [|injection Hbody as <- _; exact Hs].
  apply bind_Ok in Hbody as ([h1 c] & Hcopy & Hrest).
  apply bind_Ok in Hrest as (items & _ & Hret).
  injection Hret as <- _. eapply deep_copy_wf; eassumption.
Qed.

Lemma merge_site_wf rl h a value bs keep h' :
  merge_site rl h a value bs keep = Ok h' -> wf_store h -> wf_store h'.
Proof.
  unfold merge_site. intros H Hh.
  destruct (find_sub_schema_by_ref_value bs value) as [rs|];
    [|injection H as <-; exact Hh].
  destruct (truthy h rs && is_dict h rs); [|injection H as <-; exact Hh].
  apply bind_Ok in H as ([hc c] & Hcopy & H).
  apply bind_Ok in H as (cached & _ & H).
  apply bind_Ok in H as ([hk kept] & Hkeep & H).
  pose proof (keep_keys_wf _ _ _ _ _ _ Hkeep (deep_copy_wf _ _ _ _ _ Hcopy Hh)) as Hk.
  assert (H3 : wf_store (<[a := ODict []]> hk))
    by (apply wf_store_insert; [exact Hk | constructor]).
  pose proof (dict_update_wf _ a
                (dict_entries (<[a := ODict []]> hk) rs) H3) as H4.
  assert (H5 : wf_store match kept with
                        | [] => dict_update (<[a := ODict []]> hk) a
                                  (dict_entries (<[a := ODict []]> hk) rs)
                        | _ :: _ =>
                            dict_update
                              (dict_update (<[a := ODict []]> hk) a
                                 (dict_entries (<[a := ODict []]> hk) rs)) a kept
                        end).
  { destruct kept; [exact H4 | now apply dict_update_wf]. }
  destruct cached; injection H as <-; [now apply dict_update_wf | exact H5].
Qed.

Lemma walk_and_merge_references_wf rl : forall h arb bs keep h',
  walk_and_merge_references rl h arb bs keep = Ok h' -> wf_store h -> wf_store h'.
Proof.
  induction rl as [|rl IH]; intros h arb bs keep h' H Hh; [discriminate|].
  simpl in H. destruct arb as [| | | | |a]; try (injection H as <-; exact Hh).
  destruct (h !! a) as [[kvs|xs]|]; try (injection H as <-; exact Hh).
  refine (for_each_invariant wf_store _ _ _ _ h' Hh H).
  intros hs [key value] hs' Hs Hbody.
  destruct (String.eqb key "$ref"); [eapply merge_site_wf; eassumption|].
  destruct (deref hs value) as [[kvs'|xs]|]; [| |injection Hbody as <-; exact Hs].
  - eapply IH; eassumption.
  - refine (for_each_invariant wf_store _ _ _ _ hs' Hs Hbody).
    intros h1 each h2 H1 Hb. eapply IH; eassumption.
Qed.

Lemma fetch_value_from_ref_wf h r d h' v :
  fetch_value_from_ref h r d = Ok (h', v) -> wf_store h -> wf_store h'.
Proof.
  unfold fetch_value_from_ref. intros H Hh.
  destruct r as [| | | |s|l]; try discriminate.
  - destruct s as [|c0 s0]; [discriminate|].
    destruct (negb (Ascii.eqb c0 "#")); [discriminate|].
    destruct (PyStr.is_special (last_from c0 s0)); [discriminate|].
    destruct (_is_targeting_list_item _) as [li keys].
    apply bind_Ok in H as (cur & _ & H).
    destruct li as [i|]; [|injection H as <- _; exact Hh].
    destruct (PyStr.contains "/enum/" _).
    + destruct (deref h cur) as [[?|xs]|]; try discriminate.
      destruct (py_index xs i) as [x|]; [|discriminate].
      injection H as <- _. simpl.
      apply Forall_app. split; [apply Forall_app; split; [exact Hh|]|].
      * now constructor.
      * constructor; [|constructor]. simpl.
        repeat (constructor; [simpl; intuition discriminate|]). constructor.
    + apply bind_Ok in H as (v' & _ & H). injection H as <- _; exact Hh.
  - destruct (h !! l) as [[?|?]|]; discriminate.
Qed.

Lemma gather_wf rl cwd fs file_path source : forall refs h subs oas r,
  gather rl cwd fs file_path source refs h subs oas = Ok r ->
  wf_store h -> wf_store r.1.1.1.
Proof.
  induction refs as [|ref_link refs IH]; intros h subs oas r H Hh.
  - simpl in H. now injection H as <-.
  - cbn [gather] in H. apply bind_Ok in H as (kind & Hkind & H).
    destruct kind; destruct ref_link as [| | | |s|];
      try (eapply IH; eassumption).
    + apply bind_Ok in H as ([h1 sub] & Hf & H).
      eapply IH; [exact H|]. eapply fetch_value_from_ref_wf; eassumption.
    + apply bind_Ok in H as (j & _ & H).
      pose proof (load_json_wf j h Hh) as Hl.
      destruct (load_json j h) as [h1 doc].
      apply bind_Ok in H as ([h2 v0] & Hf & H).
      pose proof (fetch_value_from_ref_wf _ _ _ _ _ Hf Hl) as H2.
      apply bind_Ok in H as (sub & _ & H).
      apply bind_Ok in H as (has_refs & _ & H).
      destruct has_refs; [|now injection H as <-].
      apply bind_Ok in H as ([h3 frag] & Hf3 & H).
      eapply IH; [exact H|]. eapply fetch_value_from_ref_wf; eassumption.
Qed.

(** The store in which the references of a file are merged, and the store
    after the merge, are well formed. *)
Lemma merge_stores_wf rl cwd fs file_path j refs r h2 :
  gather rl cwd fs file_path (load_json j []).2 refs (load_json j []).1 [] Unbound
    = Ok r ->
  walk_and_merge_references rl r.1.1.1 (load_json j []).2 r.1.1.2
    (Some ["i6RefCollectionName"]) = Ok h2 ->
  wf_store r.1.1.1 /\ wf_store h2.
Proof.
  intros Hg Hw.
  assert (H1 : wf_store r.1.1.1).
  { eapply gather_wf; [exact Hg|]. apply load_json_wf. constructor. }
  split; [exact H1|]. eapply walk_and_merge_references_wf; eassumption.
Qed.

(** ** Sharing between a fragment and the document *)

(** The entries written into a site are the fragment's own objects: a
    reference nested in the fragment and resolved later in the same walk is
    resolved at the site too.  A fragment that is the site itself is empty
    once the site is cleared; a fragment that contains the site makes the
    document circular, which [json.dump] refuses, or makes the search of the
    annotation fields recurse without end. *)
Example merged_fragments_are_shared :
  resolved_document 1000 [] [] "/d/a.json" Samples.shared_fragment
  = Ok (JDict [("a", JDict [("p", JDict [("type", JStr "string")])]);
               ("defs",
                JDict [("x", JDict [("p", JDict [("type", JStr "string")])]);
                       ("y", JDict [("type", JStr "string")])])]) /\
  resolved_document 1000 [] [] "/d/a.json" Samples.self_reference
  = Ok (JDict [("a", JDict [])]) /\
  resolved_document 1000 [] [] "/d/a.json" Samples.enclosing_fragment
  = Raise ValueError /\
  resolved_document 1000 [] [] "/d/a.json" Samples.enclosing_fragment_searched
  = Raise RecursionError.
Proof. repeat split; vm_compute; reflexivity. Qed.

(** A file removed from the deferred list during the loop makes the loop
    pass over the file that follows it: of three files without references,
    a pass removes the first and the third. *)
Example pass_skips_after_removal :
  pass 1000 [] (State Runs.plain_files ["/d/a.json"; "/d/b.json"; "/d/c.json"] None)
  = Ok (State Runs.plain_files ["/d/b.json"] None) /\
  resolve_references 1000 [] 2 Runs.plain_files
    ["/d/a.json"; "/d/b.json"; "/d/c.json"]
  = Some (Ok (State Runs.plain_files [] None)).
Proof. split; vm_compute; reflexivity. Qed.

(** ** The tests of the repository, on the model *)

Example test_walk_dictionary :
  Runs.searched "KEY1" Runs.flat = Ok ("key1", JStr "value1") /\
  Runs.searched "NESTED_KEY" Runs.nested
  = Ok ("key2.subkey2.nested_key", JStr "nested_value") /\
  Runs.searched "SUBKEY2" Runs.nested_plain
  = Ok ("key2.subkey2", JStr "non-json-value") /\
  Runs.searched "nonexistent" Runs.flat = Raise KeyError /\
  Runs.searched "key" (JDict []) = Raise KeyError /\
  walk_dictionary 1000 [] (VStr "not a dictionary") "key" = Raise TypeError /\
  Runs.searched "NESTED_KEY" Runs.numeric
  = Ok ("key2.subkey2.nested_key", JInt 3).
Proof. repeat split; vm_compute; reflexivity. Qed.

Example test_fetch_value_from_ref :
  let fetch r :=
    let '(h, d) := load_json Runs.nested_dict [] in
    '(h', v) ← fetch_value_from_ref h r d; dump h' v in
  fetch (VStr "nota$reflink") = Raise ValueError /\
  fetch (VStr "#/key1/nested_key2/deep_key2/inner_key2") = Ok (JStr "value2") /\
  fetch (VStr "#/key1/nested_key2/deep_key2/inner_key2/&") = Raise ValueError /\
  fetch (VStr "#/key2/nested_key3/deep_key3/inner_key3/0") = Ok (JStr "a") /\
  fetch (VStr "#/key2/nested_key3/deep_key3/inner_key3/7") = Raise IndexError /\
  fetch (VInt 420) = Raise ValueError /\
  fetch (VStr "#/key2/nested_key4/enum/0")
  = Ok (JDict [("enum", JList [JStr "KG"]); ("type", JStr "string")]).
Proof. repeat split; vm_compute; reflexivity. Qed.

(** ** More on the scheduler: files whose references are all of one kind *)

Lemma gather_internal_only rl cwd fs file_path source : forall refs h subs r,
  Forall (fun ref_link => evaluate_ref ref_link = Ok INTERNAL) refs ->
  gather rl cwd fs file_path source refs h subs Unbound = Ok r ->
  r.1.2 = Unbound /\ length r.1.1.2 = length subs + length refs.
Proof.
  induction refs as [|ref_link refs IH]; intros h subs r Hall H.
  - simpl in H. injection H as <-. simpl. split; [reflexivity | lia].
  - inversion Hall as [|? ? Hkind Hall']; subst.
    cbn [gather] in H. rewrite Hkind in H. cbn [mbind result_bind] in H.
    destruct ref_link as [| | | |s|]; try discriminate Hkind.
    apply bind_Ok in H as ([h1 sub] & _ & H).
    apply IH in H as [Ho Hl]; [|exact Hall'].
    split; [exact Ho|]. rewrite Hl, length_app. simpl. lia.
Qed.

(** X9: a file with references, all of them internal, is never taken off
    the deferred list while no external document has been loaded: its
    processing raises, at the latest when [oas_spec] is read. *)
Lemma internal_only_never_removed rl cwd st file_path j refs :
  oas_spec st = None ->
  read_file (files st) (Path.join_resolve cwd file_path) = Ok j ->
  walk_references rl (load_json j []).1 (load_json j []).2 = Ok refs ->
  refs <> [] ->
  Forall (fun ref_link => evaluate_ref ref_link = Ok INTERNAL) refs ->
  exists e, process_file rl cwd st file_path = Raise e.
Proof.
  intros Hoas Hread Hrefs Hne Hall. unfold process_file.
  rewrite Hread. cbn [mbind result_bind].
  destruct (load_json j []) as [h0 src] eqn:El. simpl in Hrefs.
  rewrite Hrefs. cbn [mbind result_bind].
  destruct refs as [|r0 refs]; [contradiction|].
  rewrite Hoas. cbn [carried].
  destruct (gather rl cwd (files st) file_path src (r0 :: refs) h0 [] Unbound)
    as [[[[h1 subs] oas] b]|e] eqn:Eg; [|now exists e].
  apply gather_internal_only in Eg as [Ho Hl]; [|exact Hall].
  simpl in Ho, Hl. subst oas. cbn [mbind result_bind].
  destruct subs as [|s subs]; [discriminate|].
  destruct (walk_and_merge_references rl h1 src (s :: subs)
              (Some ["i6RefCollectionName"])) as [h2|e]; [|now exists e].
  cbn [mbind result_bind].
  destruct (dump h2 src) as [res|e]; [|now exists e].
  now exists UnboundLocalError.
Qed.

Lemma gather_external_only rl cwd fs file_path source : forall refs h subs oas,
  Forall (fun ref_link => evaluate_ref ref_link = Ok EXTERNAL) refs ->
  gather rl cwd fs file_path source refs h subs oas = Ok (h, subs, oas, false).
Proof.
  induction refs as [|ref_link refs IH]; intros h subs oas Hall; [reflexivity|].
  inversion Hall as [|? ? Hkind Hall']; subst.
  cbn [gather]. rewrite Hkind. cbn [mbind result_bind].
  destruct ref_link; now apply IH.
Qed.

(** X10: a file with references, all of them external, is left as it is by
    its processing: nothing is gathered, nothing written, and the file stays
    in the deferred list. *)
Lemma external_only_unchanged rl cwd st file_path j refs :
  read_file (files st) (Path.join_resolve cwd file_path) = Ok j ->
  walk_references rl (load_json j []).1 (load_json j []).2 = Ok refs ->
  refs <> [] ->
  Forall (fun ref_link => evaluate_ref ref_link = Ok EXTERNAL) refs ->
  process_file rl cwd st file_path = Ok st.
Proof.
  intros Hread Hrefs Hne Hall. unfold process_file.
  rewrite Hread. cbn [mbind result_bind].
  destruct (load_json j []) as [h0 src] eqn:El. simpl in Hrefs.
  rewrite Hrefs. cbn [mbind result_bind].
  destruct refs as [|r0 refs]; [contradiction|].
  rewrite (gather_external_only _ _ _ _ _ _ _ _ _ Hall). cbn [mbind result_bind].
  destruct st as [fs d [[ho vo]|]]; reflexivity.
Qed.

(** A kept key whose value at the site is a non-empty string makes the loop
    over the keys to keep fail. *)
Lemma keep_keys_string_value rl h a site key c s :
  h !! a = Some (ODict site) ->
  Dict.get key site = Some (VStr (String c s)) ->
  keep_keys rl h a (Some [key]) = Raise ValueError.
Proof.
  intros Ha Hget. unfold keep_keys. cbn [for_each fst]. simpl.
  rewrite Ha, Hget. destruct rl; reflexivity.
Qed.

(** * Further properties of the code *)

(** ** Loops *)

Lemma for_each_invariant_in {A S} (P : S -> Prop) (body : S -> A -> result S) :
  forall xs,
  (forall s x s', In x xs -> P s -> body s x = Ok s' -> P s') ->
  forall s s', P s -> for_each body s xs = Ok s' -> P s'.
Proof.
  induction xs as [|x xs IH]; simpl; intros Hbody s s' Hs H.
  - injection H as <-; exact Hs.
  - apply bind_Ok in H as (s1 & H1 & H2).
    apply (IH (fun s x' s' Hin => Hbody s x' s' (or_intror Hin)) s1 s');
      [|exact H2].
    eapply Hbody; [now left | exact Hs | exact H1].
Qed.

(** ** What a merge leaves alone *)

Lemma dict_update_length h a other : length (dict_update h a other) = length h.
Proof.
  unfold dict_update. destruct (h !! a) as [[?|?]|]; try reflexivity.
  apply length_insert.
Qed.

Lemma dict_update_other h a other l :
  l <> a -> dict_update h a other !! l = h !! l.
Proof.
  intros Hne. unfold dict_update. destruct (h !! a) as [[?|?]|]; try reflexivity.
  apply list_lookup_insert_ne. congruence.
Qed.

(** The merge at a site changes no object of the store but the site. *)
Lemma merge_site_frame rl h a value bs keep h' :
  merge_site rl h a value bs keep = Ok h' ->
  length h <= length h' /\
  forall l, l < length h -> l <> a -> h' !! l = h !! l.
Proof.
  unfold merge_site. intros H.
  destruct (find_sub_schema_by_ref_value bs value) as [rs|];
    [|injection H as <-; split; [lia | reflexivity]].
  destruct (truthy h rs && is_dict h rs);
    [|injection H as <-; split; [lia | reflexivity]].
  apply bind_Ok in H as ([hc c] & Hcopy & H).
  apply bind_Ok in H as (cached & _ & H).
  apply bind_Ok in H as ([hk kept] & Hkeep & H).
  pose proof (deep_copy_extends _ _ _ _ _ Hcopy) as E1.
  pose proof (keep_keys_extends _ _ _ _ _ _ Hkeep) as [E2 _].
  destruct (extends_trans _ _ _ E1 E2) as [EL EF].
  set (h3 := <[a := ODict []]> hk) in *.
  set (h4 := dict_update h3 a (dict_entries h3 rs)) in *.
  set (h5 := match kept with [] => h4 | _ :: _ => dict_update h4 a kept end) in *.
  assert (L5 : length h5 = length hk).
  { unfold h5, h4, h3. destruct kept;
      rewrite ?dict_update_length, ?length_insert; reflexivity. }
  assert (F5 : forall l, l <> a -> h5 !! l = hk !! l).
  { intros l Hl. unfold h5, h4, h3. destruct kept;
      rewrite ?dict_update_other by exact Hl;
      apply list_lookup_insert_ne; congruence. }
  destruct cached as [cd|]; injection H as <-.
  - split; [rewrite dict_update_length; lia|].
    intros l Hlt Hl. rewrite dict_update_other, F5 by exact Hl. now apply EF.
  - split; [lia|]. intros l Hlt Hl. rewrite F5 by exact Hl. now apply EF.
Qed.

Lemma find_sub_schema_in bs value rs :
  find_sub_schema_by_ref_value bs value = Some rs ->
  exists b, In b bs /\ ref_equal (ref b) value = true /\ sub_schema b = rs.
Proof.
  induction bs as [|b bs IH]; simpl; [discriminate|].
  destruct (ref_equal (ref b) value) eqn:E.
  - intros [= <-]. exists b. repeat split; [now left | exact E].
  - intros H. destruct (IH H) as (b' & Hin & Hr & Hs).
    exists b'. repeat split; [now right | exact Hr | exact Hs].
Qed.

(** X1: [walk_and_merge_references] changes nothing when none of the sub
    schemas it is given is a non-empty dict (in particular when it is given
    none): a reference that resolves to a string, a number, a list, [None] or
    an empty dict stays in the document. *)
Theorem walk_and_merge_without_mergeable bs h :
  (forall b, In b bs -> mergeable h (sub_schema b) = false) ->
  forall rl arb_object keep h',
  walk_and_merge_references rl h arb_object bs keep = Ok h' -> h' = h.
Proof.
  intros Hbs. induction rl as [|rl IH]; intros arb keep h' H; [discriminate|].
  simpl in H. destruct arb as [| | | | |a]; try (now injection H as <-).
  destruct (h !! a) as [[kvs|xs]|]; try (now injection H as <-).
  refine (for_each_invariant (fun hs => hs = h) _ _ _ h h' eq_refl H).
  intros hs [key value] hs' -> Hbody.
  destruct (String.eqb key "$ref").
  - unfold merge_site in Hbody.
    destruct (find_sub_schema_by_ref_value bs value) as [rs|] eqn:Ef;
      [|now injection Hbody as <-].
    destruct (find_sub_schema_in _ _ _ Ef) as (b & Hin & _ & <-).
    specialize (Hbs b Hin). unfold mergeable in Hbs. rewrite Hbs in Hbody.
    now injection Hbody as <-.
  - destruct (deref h value) as [[kvs'|xs]|]; [| |now injection Hbody as <-].
    + eapply IH, Hbody.
    + refine (for_each_invariant (fun hs => hs = h) _ _ _ h hs' eq_refl Hbody).
      intros h1 each h2 -> Hb. eapply IH, Hb.
Qed.

Lemma walk_and_merge_without_mergeable_witness :
  match walk_and_merge_references 1000 (load_json More.string_fragment []).1
          (VRef 1) [Binding "#/x" (VStr "text")] (Some ["i6RefCollectionName"])
  with
  | Ok h' => h'
  | Raise _ => []
  end = (load_json More.string_fragment []).1.
Proof.
  apply (walk_and_merge_without_mergeable [Binding "#/x" (VStr "text")]
           (load_json More.string_fragment []).1
           ltac:(intros b [<-|[]]; vm_compute; reflexivity)
           1000 (VRef 1) (Some ["i6RefCollectionName"])).
  vm_compute; reflexivity.
Defined.

Lemma walk_and_merge_frame_from bs h0 :
  forall rl h arb_object keep h',
  (length h0 <= length h /\ forall l, no_ref_key h0 l -> h !! l = h0 !! l) ->
  walk_and_merge_references rl h arb_object bs keep = Ok h' ->
  length h0 <= length h' /\ forall l, no_ref_key h0 l -> h' !! l = h0 !! l.
Proof.
  induction rl as [|rl IH]; intros h arb keep h' Hinv H; [discriminate|].
  simpl in H. destruct arb as [| | | | |a]; try (now injection H as <-).
  destruct (h !! a) as [[kvs|xs]|] eqn:Ea; try (now injection H as <-).
  refine (for_each_invariant_in
            (fun hs => length h0 <= length hs /\
                       forall l, no_ref_key h0 l -> hs !! l = h0 !! l)
            _ kvs _ h h' Hinv H).
  intros hs [key value] hs' Hin [HL HF] Hbody.
  destruct (String.eqb_spec key "$ref") as [->|Hkey].
  - destruct (merge_site_frame _ _ _ _ _ _ _ Hbody) as [ML MF].
    split; [lia|]. intros l Hl.
    assert (Hlt : l < length h0).
    { unfold no_ref_key in Hl. destruct (h0 !! l) eqn:E; [|contradiction].
      now apply lookup_lt_Some in E. }
    rewrite MF; [now apply HF | lia |].
    intros ->. destruct Hinv as [_ HF0].
    pose proof (HF0 a Hl) as Hsame. rewrite Ea in Hsame.
    unfold no_ref_key in Hl. rewrite <- Hsame in Hl. apply Hl.
    apply (in_map fst) in Hin. exact Hin.
  - destruct (deref hs value) as [[kvs'|xs]|];
      [| |injection Hbody as <-; now split].
    + eapply IH; [|exact Hbody]. now split.
    + refine (for_each_invariant
                (fun hs => length h0 <= length hs /\
                           forall l, no_ref_key h0 l -> hs !! l = h0 !! l)
                _ _ _ hs hs' _ Hbody); [|now split].
      intros h1 each h2 Hinv1 Hb. eapply IH; eassumption.
Qed.

(** X2: [walk_and_merge_references] never removes an object from the store
    and never changes a list or a dict that has no ["$ref"] key: the only
    objects it changes are dicts that hold a reference. *)
Theorem walk_and_merge_frame bs rl h arb_object keep h' :
  walk_and_merge_references rl h arb_object bs keep = Ok h' ->
  length h <= length h' /\ forall l, no_ref_key h l -> h' !! l = h !! l.
Proof.
  apply (walk_and_merge_frame_from bs h). split; [lia | reflexivity].
Qed.

Lemma walk_and_merge_frame_witness :
  length (Samples.store Samples.chained) <=
  length match walk_and_merge_references 1000 (Samples.store Samples.chained)
                 (VRef 3) [Binding "#/a" (VRef 1); Binding "#/b" (VRef 2)]
                 Samples.keep
         with Ok h' => h' | Raise _ => [] end /\
  forall l, no_ref_key (Samples.store Samples.chained) l ->
    match walk_and_merge_references 1000 (Samples.store Samples.chained)
            (VRef 3) [Binding "#/a" (VRef 1); Binding "#/b" (VRef 2)]
            Samples.keep
    with Ok h' => h' | Raise _ => [] end !! l
    = Samples.store Samples.chained !! l.
Proof.
  apply (walk_and_merge_frame [Binding "#/a" (VRef 1); Binding "#/b" (VRef 2)]
           1000 (Samples.store Samples.chained) (VRef 3) Samples.keep).
  vm_compute; reflexivity.
Defined.

(** ** Locating a pointer never changes the document *)

(** X3: [fetch_value_from_ref] changes no object of the store: the store it
    returns is the store it was given, followed by the two objects of the
    enum fragment when the reference has a list index and ["/enum/"] in
    it. *)
Theorem fetch_value_from_ref_pure h ref_string data_dict h' v :
  fetch_value_from_ref h ref_string data_dict = Ok (h', v) ->
  extends h h' /\
  (h' = h \/
   exists s x ty,
     ref_string = VStr s /\
     PyStr.contains "/enum/" (PyStr.lower s) = true /\
     h' = (h ++ [OList [x]]) ++
          [ODict [("enum", VRef (length h)); ("type", VStr ty)]]).
Proof.
  unfold fetch_value_from_ref. intros H.
  destruct ref_string as [| | | |s|l]; try discriminate.
  - destruct s as [|c0 s0]; [discriminate|].
    destruct (negb (Ascii.eqb c0 "#")); [discriminate|].
    destruct (PyStr.is_special (last_from c0 s0)); [discriminate|].
    destruct (_is_targeting_list_item _) as [li keys].
    apply bind_Ok in H as (cur & _ & H).
    destruct li as [i|];
      [|injection H as <- _; split; [apply extends_refl | now left]].
    destruct (PyStr.contains "/enum/" _) eqn:Ec.
    + destruct (deref h cur) as [[?|xs]|]; try discriminate.
      destruct (py_index xs i) as [x|]; [|discriminate].
      injection H as <- _. simpl. split.
      * split; [rewrite !length_app; lia|].
        intros l Hl. rewrite <- app_assoc. now apply lookup_app_l.
      * right. exists (String c0 s0), x,
          (if forallb is_int xs then "number" else "string"). now repeat split.
    + apply bind_Ok in H as (v' & _ & H). injection H as <- _.
      split; [apply extends_refl | now left].
  - destruct (h !! l) as [[?|?]|]; discriminate.
Qed.

Lemma fetch_value_from_ref_pure_witness :
  extends (load_json Runs.nested_dict []).1 (load_json Runs.nested_dict []).1 /\
  ((load_json Runs.nested_dict []).1 = (load_json Runs.nested_dict []).1 \/
   exists s x ty,
     VStr "#/key2/nested_key3/deep_key3/inner_key3/0" = VStr s /\
     PyStr.contains "/enum/" (PyStr.lower s) = true /\
     (load_json Runs.nested_dict []).1 =
       ((load_json Runs.nested_dict []).1 ++ [OList [x]]) ++
       [ODict [("enum", VRef (length (load_json Runs.nested_dict []).1));
               ("type", VStr ty)]]).
Proof.
  apply (fetch_value_from_ref_pure (load_json Runs.nested_dict []).1
           (VStr "#/key2/nested_key3/deep_key3/inner_key3/0")
           (load_json Runs.nested_dict []).2
           (load_json Runs.nested_dict []).1 (VStr "a")).
  vm_compute; reflexivity.
Defined.

(** ** A list met before the end of the path *)

Lemma traverse_app h li keys1 keys2 d :
  traverse h li (keys1 ++ keys2) d =
  cur ← traverse h li keys1 d; traverse h li keys2 cur.
Proof. unfold traverse. apply for_each_app. Qed.

(** X4: when the traversal of [fetch_value_from_ref] has reached a list and
    keys remain, the remaining keys are not looked up at all if the pointer
    has a list index other than 0 (the list itself is the value the index is
    applied to), and the first of them raises [TypeError] if the index is 0
    or absent. *)
Theorem traverse_list_before_end h list_index keys1 keys2 data_dict current :
  traverse h list_index keys1 data_dict = Ok current ->
  is_list h current = true ->
  keys2 <> [] ->
  traverse h list_index (keys1 ++ keys2) data_dict =
  if index_true list_index then Ok current else Raise TypeError.
Proof.
  intros H1 Hlist Hne. rewrite traverse_app, H1. cbn [mbind result_bind].
  unfold traverse. destruct (index_true list_index) eqn:Ei.
  - clear Hne. induction keys2 as [|k keys2 IH]; [reflexivity|].
    cbn [for_each]. rewrite Hlist. cbn [andb mbind result_bind]. exact IH.
  - destruct keys2 as [|k keys2]; [contradiction|].
    cbn [for_each]. rewrite Hlist. cbn [andb]. unfold subscript_key.
    unfold is_list, deref in Hlist.
    destruct current as [| | | | |l]; try discriminate.
    destruct (h !! l) as [[?|?]|]; try discriminate. reflexivity.
Qed.

Lemma traverse_list_before_end_witness :
  traverse (load_json More.list_on_path []).1 (Some 2%Z) (["a"] ++ ["b"; "c"])
    (load_json More.list_on_path []).2 =
  if index_true (Some 2%Z) then Ok (VRef 3) else Raise TypeError.
Proof.
  apply (traverse_list_before_end (load_json More.list_on_path []).1
           (Some 2%Z) ["a"] ["b"; "c"] (load_json More.list_on_path []).2
           (VRef 3)).
  - vm_compute; reflexivity.
  - vm_compute; reflexivity.
  - discriminate.
Defined.

(** The same on a whole pointer: the key [b] after the list is ignored with
    index 2, and raises with index 0. *)
Example pointer_through_list :
  Runs.located "#/a/b/2" More.list_on_path = Ok (JDict [("b", JInt 3)]) /\
  Runs.located "#/a/b/0" More.list_on_path = Raise TypeError /\
  Runs.located "#/a/2" More.list_on_path = Ok (JDict [("b", JInt 3)]).
Proof. repeat split; vm_compute; reflexivity. Qed.

(** ** Keys to keep that the site does not have *)

(** X5: a key to keep that the site does not have is passed over: when the
    site has none of the keys, nothing is kept and the store is
    unchanged. *)
Theorem keep_keys_absent rl h a site keys :
  h !! a = Some (ODict site) ->
  (forall k, In k keys -> Dict.get k site = None) ->
  keep_keys rl h a (Some keys) = Ok (h, []).
Proof.
  intros Ha Hnone. unfold keep_keys.
  destruct keys as [|k0 keys0]; [reflexivity|].
  set (ks := k0 :: keys0) in *. clearbody ks.
  induction ks as [|k ks IH]; [reflexivity|].
  simpl. rewrite Ha, (Hnone k) by now left. simpl.
  apply IH. intros k' Hk'. apply Hnone. now right.
Qed.

Lemma keep_keys_absent_witness :
  keep_keys 1000 (Samples.store Samples.annotated) 0
    (Some ["i6RefCollectionName"]) = Ok (Samples.store Samples.annotated, []).
Proof.
  apply (keep_keys_absent 1000 (Samples.store Samples.annotated) 0
           [("$ref", VStr "#/x"); ("nullable", VBool true)]
           ["i6RefCollectionName"]).
  - vm_compute; reflexivity.
  - intros k [<-|[]]. reflexivity.
Defined.

(** ** Runs over files without references *)

Lemma remove_first_middle x kept rest :
  ~ In x kept -> remove_first x (kept ++ x :: rest) = Ok (kept ++ rest).
Proof.
  induction kept as [|k kept IH]; simpl; intros Hnin.
  - now rewrite String.eqb_refl.
  - destruct (String.eqb_spec k x) as [->|Hne]; [exfalso; apply Hnin; now left|].
    rewrite IH by tauto. reflexivity.
Qed.

Lemma process_file_ref_free rl cwd fs d o f d' :
  ref_free rl cwd fs f -> remove_first f d = Ok d' ->
  process_file rl cwd (State fs d o) f = Ok (State fs d' o).
Proof.
  intros (j & Hread & Hrefs) Hrem. unfold process_file. simpl.
  rewrite Hread. cbn [mbind result_bind].
  destruct (load_json j []) as [h0 src]. simpl in Hrefs.
  rewrite Hrefs. cbn [mbind result_bind]. now rewrite Hrem.
Qed.

Lemma for_deferred_past_end rl cwd n i st :
  length (deferred_files st) <= i -> for_deferred rl cwd n i st = Ok st.
Proof.
  intros Hlen. destruct n as [|n]; [reflexivity|]. simpl.
  destruct (deferred_files st !! i) eqn:E; [|reflexivity].
  apply lookup_lt_Some in E. lia.
Qed.

Lemma for_deferred_ref_free rl cwd fs o : forall n kept rest,
  List.NoDup (kept ++ rest) ->
  (forall p, In p rest -> ref_free rl cwd fs p) ->
  length rest <= n ->
  for_deferred rl cwd n (length kept) (State fs (kept ++ rest) o)
  = Ok (State fs (kept ++ every_other rest) o).
Proof.
  induction n as [|n IH]; intros kept rest Hnd Hfree Hlen.
  - destruct rest; [reflexivity | simpl in Hlen; lia].
  - destruct rest as [|x rest].
    + apply for_deferred_past_end. simpl. rewrite length_app. simpl. lia.
    + cbn [for_deferred deferred_files].
      rewrite lookup_app_r by lia. rewrite Nat.sub_diag. cbn [lookup list_lookup].
      assert (Hx : ~ In x kept).
      { intros Hin. apply List.NoDup_remove_2 in Hnd. apply Hnd.
        apply in_or_app. now left. }
      rewrite (process_file_ref_free rl cwd fs _ o x (kept ++ rest));
        [|apply Hfree; now left | now apply remove_first_middle].
      cbn [mbind result_bind].
      assert (Hnd' : List.NoDup (kept ++ rest)).
      { apply List.NoDup_remove_1 in Hnd. exact Hnd. }
      destruct rest as [|y rest].
      * simpl every_other. apply for_deferred_past_end. simpl.
        rewrite length_app. simpl. lia.
      * replace (kept ++ y :: rest) with ((kept ++ [y]) ++ rest)
          by (now rewrite <- app_assoc).
        replace (S (length kept)) with (length (kept ++ [y]))
          by (rewrite length_app; simpl; lia).
        rewrite IH.
        -- simpl every_other. now rewrite <- app_assoc.
        -- now rewrite <- app_assoc.
        -- intros p Hp. apply Hfree. right; now right.
        -- simpl in Hlen. lia.
Qed.

Lemma pair_induction {A} (P : list A -> Prop) :
  P [] -> (forall a, P [a]) -> (forall a b l, P l -> P (a :: b :: l)) ->
  forall l, P l.
Proof.
  intros H0 H1 H2 l.
  enough (H : P l /\ forall a, P (a :: l)) by apply H.
  induction l as [|b l [IHl IHc]]; [now split|].
  split; [apply IHc|]. intros a. now apply H2.
Qed.

Lemma every_other_In {A} (x : A) : forall l, In x (every_other l) -> In x l.
Proof.
  induction l as [|a|a b l IH] using pair_induction; simpl; tauto.
Qed.

Lemma every_other_NoDup {A} : forall l : list A,
  List.NoDup l -> List.NoDup (every_other l).
Proof.
  induction l as [|a|a b l IH] using pair_induction; intros Hnd; simpl;
    try constructor.
  - inversion Hnd as [|? ? _ Hnd']; subst.
    inversion Hnd' as [|? ? Hb _]; subst.
    intros Hin. apply Hb. now apply every_other_In.
  - apply IH. inversion Hnd as [|? ? _ Hnd']; subst.
    now inversion Hnd'.
Qed.

Lemma every_other_length {A} : forall l : list A,
  2 * length (every_other l) <= length l.
Proof.
  induction l as [|a|a b l IH] using pair_induction; simpl; lia.
Qed.

Lemma pass_ref_free rl cwd fs o paths :
  List.NoDup paths ->
  (forall p, In p paths -> ref_free rl cwd fs p) ->
  pass rl cwd (State fs paths o) = Ok (State fs (every_other paths) o).
Proof.
  intros Hnd Hfree. unfold pass. simpl.
  apply (for_deferred_ref_free rl cwd fs o (length paths) [] paths);
    [exact Hnd | exact Hfree | lia].
Qed.

(** X6: in a pass over files that are all distinct and free of references,
    the loop over [deferred_files] removes the file it is at and thereby
    steps over the next one: the files left deferred after the pass are
    those at the second, fourth, ... place, and no file is written. *)
Theorem pass_over_ref_free rl cwd fs o paths :
  List.NoDup paths ->
  (forall p, In p paths -> ref_free rl cwd fs p) ->
  pass rl cwd (State fs paths o) = Ok (State fs (every_other paths) o).
Proof.
  intros Hnd Hfree. now apply pass_ref_free.
Qed.

Lemma plain_files_ref_free p :
  In p ["/d/a.json"; "/d/b.json"; "/d/c.json"] ->
  ref_free 1000 [] Runs.plain_files p.
Proof.
  intros [<-|[<-|[<-|[]]]]; exists (JDict []); split; vm_compute; reflexivity.
Qed.

Lemma plain_paths_NoDup : List.NoDup ["/d/a.json"; "/d/b.json"; "/d/c.json"].
Proof. repeat (constructor; [simpl; intuition discriminate|]). constructor. Qed.

Lemma pass_over_ref_free_witness :
  pass 1000 [] (State Runs.plain_files ["/d/a.json"; "/d/b.json"; "/d/c.json"] None)
  = Ok (State Runs.plain_files
          (every_other ["/d/a.json"; "/d/b.json"; "/d/c.json"]) None).
Proof.
  apply (pass_over_ref_free 1000 [] Runs.plain_files None
           ["/d/a.json"; "/d/b.json"; "/d/c.json"]).
  - exact plain_paths_NoDup.
  - exact plain_files_ref_free.
Defined.

(** X7: a run of [resolve_references] over distinct files that are all free
    of references ends: after at most as many passes as there are files the
    deferred list is empty, and every file is as it was. *)
Theorem run_over_ref_free rl cwd fs paths passes :
  List.NoDup paths ->
  (forall p, In p paths -> ref_free rl cwd fs p) ->
  length paths <= passes ->
  resolve_references rl cwd passes fs paths = Some (Ok (State fs [] None)).
Proof.
  unfold resolve_references. revert paths.
  induction passes as [|n IH]; intros paths Hnd Hfree Hlen.
  - destruct paths; [reflexivity | simpl in Hlen; lia].
  - destruct paths as [|p paths]; [reflexivity|].
    rewrite resolve_loop_step by discriminate.
    rewrite (pass_ref_free rl cwd fs None _ Hnd Hfree).
    apply IH.
    + now apply every_other_NoDup.
    + intros q Hq. apply Hfree. now apply every_other_In.
    + pose proof (every_other_length (p :: paths)). simpl in *. lia.
Qed.

Lemma run_over_ref_free_witness :
  resolve_references 1000 [] 3 Runs.plain_files
    ["/d/a.json"; "/d/b.json"; "/d/c.json"]
  = Some (Ok (State Runs.plain_files [] None)).
Proof.
  apply (run_over_ref_free 1000 [] Runs.plain_files
           ["/d/a.json"; "/d/b.json"; "/d/c.json"] 3).
  - exact plain_paths_NoDup.
  - exact plain_files_ref_free.
  - simpl; lia.
Defined.

(** ** The files a run writes *)

Lemma read_write_other fs p q j :
  p <> q -> read_file (write_file fs q j) p = read_file fs p.
Proof.
  intros Hne. induction fs as [|[r j'] fs IH]; simpl.
  - destruct (decide (q = p)); [congruence | reflexivity].
  - destruct (decide (r = q)) as [->|Hrq]; simpl.
    + destruct (decide (q = p)); [congruence | reflexivity].
    + destruct (decide (r = p)); [reflexivity | exact IH].
Qed.

Lemma remove_first_In f l l' x :
  remove_first f l = Ok l' -> In x l' -> In x l.
Proof.
  revert l'; induction l as [|y l IH]; simpl; intros l' H Hin; [discriminate|].
  destruct (String.eqb y f); [injection H as <-; now right|].
  apply bind_Ok in H as (l'' & H1 & H2). injection H2 as <-.
  destruct Hin as [<-|Hin]; [now left | right; eauto].
Qed.

(** The processing of a file writes no other file, and puts no file in the
    deferred list. *)
Lemma process_file_writes rl cwd st f st' :
  process_file rl cwd st f = Ok st' ->
  (forall p, p <> Path.join_resolve cwd f ->
             read_file (files st') p = read_file (files st) p) /\
  (forall x, In x (deferred_files st') -> In x (deferred_files st)).
Proof.
  unfold process_file. intros H.
  apply bind_Ok in H as (j & _ & H).
  destruct (load_json j []) as [h0 src].
  apply bind_Ok in H as (refs & _ & H).
  destruct refs as [|r refs].
  - apply bind_Ok in H as (d & Hd & H). injection H as <-. simpl.
    split; [reflexivity|]. intros x Hx. eapply remove_first_In; eassumption.
  - apply bind_Ok in H as ([[[h1 subs] oas] b] & _ & H).
    destruct subs as [|s subs]; [injection H as <-; simpl; now split|].
    apply bind_Ok in H as (h2 & _ & H).
    apply bind_Ok in H as (res & _ & H).
    apply bind_Ok in H as (still & _ & H).
    destruct still.
    + apply bind_Ok in H as (d & Hd & H). injection H as <-. simpl.
      split; [intros p Hp; now apply read_write_other|].
      intros x Hx. eapply remove_first_In; eassumption.
    + injection H as <-. simpl.
      split; [intros p Hp; now apply read_write_other | tauto].
Qed.

Lemma for_deferred_writes rl cwd (paths : list string) p :
  (forall f, In f paths -> Path.join_resolve cwd f <> p) ->
  forall n i st st',
  (forall x, In x (deferred_files st) -> In x paths) ->
  for_deferred rl cwd n i st = Ok st' ->
  read_file (files st') p = read_file (files st) p /\
  (forall x, In x (deferred_files st') -> In x paths).
Proof.
  intros Hp. induction n as [|n IH]; intros i st st' Hsub H.
  - injection H as <-. now split.
  - simpl in H. destruct (deferred_files st !! i) as [f|] eqn:E;
      [|injection H as <-; now split].
    apply bind_Ok in H as (st1 & H1 & H2).
    destruct (process_file_writes _ _ _ _ _ H1) as [Hw Hd].
    assert (Hf : In f paths).
    { apply Hsub. apply list_elem_of_In. eapply list_elem_of_lookup_2, E. }
    destruct (IH (S i) st1 st' (fun x Hx => Hsub x (Hd x Hx)) H2) as [Hr Hs].
    split; [|exact Hs]. rewrite Hr. apply Hw. intros ->. now apply (Hp f).
Qed.

(** X8: a run of [resolve_references] that returns has written no file but
    those of the list it was given: every other file, and in particular a
    referenced file that is not itself in the list, has the content it had
    before the run. *)
Theorem run_writes_listed_files_only rl cwd passes fs paths st' p :
  resolve_references rl cwd passes fs paths = Some (Ok st') ->
  (forall f, In f paths -> Path.join_resolve cwd f <> p) ->
  read_file (files st') p = read_file fs p.
Proof.
  unfold resolve_references. intros H Hp.
  enough (Hgen : forall passes st,
            (forall x, In x (deferred_files st) -> In x paths) ->
            resolve_loop rl cwd passes st = Some (Ok st') ->
            read_file (files st') p = read_file (files st) p).
  { apply (Hgen passes (State fs paths None)); [simpl; tauto | exact H]. }
  clear H. induction passes0 as [|n IH]; intros st Hsub H; simpl in H.
  - destruct (deferred_files st); [now injection H as <- | discriminate].
  - destruct (deferred_files st) eqn:Ed; [now injection H as <-|].
    destruct (pass rl cwd st) as [st1|e] eqn:Epass; [|discriminate].
    unfold pass in Epass. rewrite <- Ed in Hsub.
    destruct (for_deferred_writes rl cwd paths p Hp _ _ _ _ Hsub Epass)
      as [Hr Hs].
    rewrite (IH st1 Hs H). exact Hr.
Qed.

Lemma run_writes_listed_files_only_witness :
  read_file
    (files match resolve_references 1000 [] 1 Runs.referencing_files ["/d/a.json"]
           with
           | Some (Ok st') => st'
           | _ => State [] [] None
           end) ["d"; "b.json"]
  = read_file Runs.referencing_files ["d"; "b.json"].
Proof.
  apply (run_writes_listed_files_only 1000 [] 1 Runs.referencing_files
           ["/d/a.json"]).
  - vm_compute; reflexivity.
  - intros f [<-|[]]. vm_compute. discriminate.
Defined.

(** A run that ends: the file [a.json] points into [b.json], which holds no
    reference; one pass merges the fragment, writes [a.json] and removes it
    from the deferred list. *)
Example run_with_external_pointer :
  match resolve_references 1000 [] 1 Runs.referencing_files ["/d/a.json"] with
  | Some (Ok st') => Some (files st', deferred_files st')
  | _ => None
  end
  = Some ([(["d"; "a.json"], JDict [("a", JDict [("type", JStr "string")])]);
           (["d"; "b.json"], Runs.referenced)], []).
Proof. vm_compute; reflexivity. Qed.

(** ** Files whose references are all of one kind: instances *)

Lemma internal_only_never_removed_witness :
  exists e,
    process_file 1000 []
      (State [(["d"; "a.json"], Runs.internal_nested)] ["/d/a.json"] None)
      "/d/a.json" = Raise e.
Proof.
  apply (internal_only_never_removed 1000 []
           (State [(["d"; "a.json"], Runs.internal_nested)] ["/d/a.json"] None)
           "/d/a.json" Runs.internal_nested [VStr "#/defs/x"]).
  - reflexivity.
  - vm_compute; reflexivity.
  - vm_compute; reflexivity.
  - discriminate.
  - repeat constructor.
Defined.

Lemma external_only_unchanged_witness :
  process_file 1000 [] (State Runs.external_files ["/d/a.json"] None) "/d/a.json"
  = Ok (State Runs.external_files ["/d/a.json"] None).
Proof.
  apply (external_only_unchanged 1000 []
           (State Runs.external_files ["/d/a.json"] None) "/d/a.json"
           (JDict [("$ref", JStr "./b.json")]) [VStr "./b.json"]).
  - vm_compute; reflexivity.
  - vm_compute; reflexivity.
  - discriminate.
  - repeat constructor.
Defined.

(** ** What the search for a key finds *)

Lemma walk_dict_helper_sound h t : forall rl d path p v,
  walk_dict_helper rl h t d path = Ok (Some (p, v)) ->
  exists keys, key_chain h t d keys v /\ p = dotted path keys.
Proof.
  induction rl as [|rl IH]; intros d path p v H; [discriminate|].
  simpl in H. destruct (deref h d) as [[kvs|xs]|] eqn:Ed; try discriminate.
  match type of H with ?f kvs = _ => set (items := f) in * end.
  enough (Hl : forall l, (forall kv, In kv l -> In kv kvs) ->
                 items l = Ok (Some (p, v)) ->
                 exists keys, key_chain h t d keys v /\ p = dotted path keys)
    by (apply (Hl kvs); [tauto | exact H]).
  clear H. induction l as [|[key value] l IHl]; intros Hsub H; [discriminate|].
  simpl in H.
  destruct (String.eqb_spec (PyStr.lower key) (PyStr.lower t)) as [Hm|Hm].
  - injection H as <- <-. exists [key]. split; [|reflexivity].
    eapply chain_here; [exact Ed | apply Hsub; now left | exact Hm].
  - destruct (is_dict h value) eqn:Ev.
    + apply bind_Ok in H as (m & Hm' & H). destruct m as [[p' v']|].
      * injection H as <- <-.
        destruct (IH _ _ _ _ Hm') as (keys & Hc & ->).
        exists (key :: keys). split; [|reflexivity].
        eapply chain_below; [exact Ed | apply Hsub; now left | exact Ev | exact Hc].
      * apply IHl; [intros kv Hkv; apply Hsub; now right | exact H].
    + apply IHl; [intros kv Hkv; apply Hsub; now right | exact H].
Qed.

Lemma walk_dict_helper_none h t : forall rl d path,
  walk_dict_helper rl h t d path = Ok None ->
  forall keys v, ~ key_chain h t d keys v.
Proof.
  induction rl as [|rl IH]; intros d path H; [discriminate|].
  simpl in H. destruct (deref h d) as [[kvs|xs]|] eqn:Ed; try discriminate.
  match type of H with ?f kvs = _ => set (items := f) in * end.
  assert (Hl : forall l, items l = Ok None ->
                 forall key value, In (key, value) l ->
                   PyStr.lower key <> PyStr.lower t /\
                   (is_dict h value = true ->
                    forall keys v, ~ key_chain h t value keys v)).
  { induction l as [|[k x] l IHl]; intros Hn key value Hin; [destruct Hin|].
    simpl in Hn.
    destruct (String.eqb_spec (PyStr.lower k) (PyStr.lower t)) as [Hm|Hm];
      [discriminate|].
    destruct (is_dict h x) eqn:Ex.
    - apply bind_Ok in Hn as (m & Hm' & Hn). destruct m; [discriminate|].
      destruct Hin as [[= <- <-]|Hin]; [|now apply IHl].
      split; [exact Hm|]. intros _. eapply IH, Hm'.
    - destruct Hin as [[= <- <-]|Hin]; [|now apply IHl].
      split; [exact Hm|]. congruence. }
  specialize (Hl kvs H). intros keys v Hc.
  inversion Hc as [d' kvs' key value Hd Hin Hm|d' kvs' key value keys' v' Hd Hin Hv Hc'];
    subst; rewrite Ed in Hd; injection Hd as <-.
  - destruct (Hl _ _ Hin) as [Hne _]. contradiction.
  - destruct (Hl _ _ Hin) as [_ Hno]. exact (Hno Hv _ _ Hc').
Qed.

Lemma walk_dict_helper_no_KeyError h t : forall rl d path,
  walk_dict_helper rl h t d path <> Raise KeyError.
Proof.
  induction rl as [|rl IH]; intros d path; [discriminate|].
  simpl. destruct (deref h d) as [[kvs|xs]|]; try discriminate.
  induction kvs as [|[key value] l IHl]; [discriminate|].
  destruct (String.eqb (PyStr.lower key) (PyStr.lower t)); [discriminate|].
  destruct (is_dict h value); [|exact IHl].
  destruct (walk_dict_helper rl h t value _) as [[found|]|e] eqn:E;
    simpl; [discriminate | exact IHl |].
  intros [= ->]. exact (IH _ _ E).
Qed.

(** X11: a successful [walk_dictionary] returns a value that is really in
    the dictionary under a key equal to the target up to case, reached
    through nested dicts only, together with the dotted path of the keys
    followed. *)
Theorem walk_dictionary_sound rl h dictionary target_key path v :
  walk_dictionary rl h dictionary target_key = Ok (path, v) ->
  exists keys,
    key_chain h target_key dictionary keys v /\ path = dotted "" keys.
Proof.
  unfold walk_dictionary. intros H.
  destruct (negb (is_dict h dictionary)); [discriminate|].
  apply bind_Ok in H as (out & Hh & H). destruct out as [[p' v']|]; [|discriminate].
  injection H as <- <-. eapply walk_dict_helper_sound, Hh.
Qed.

Lemma walk_dictionary_sound_witness :
  exists keys,
    key_chain (load_json Runs.nested []).1 "NESTED_KEY"
      (load_json Runs.nested []).2 keys (VStr "nested_value") /\
    "key2.subkey2.nested_key" = dotted "" keys.
Proof.
  apply (walk_dictionary_sound 1000). vm_compute; reflexivity.
Defined.

(** X12: [walk_dictionary] raises [KeyError] only when no key equal to the
    target up to case exists at any depth of nested dicts. *)
Theorem walk_dictionary_KeyError rl h dictionary target_key :
  walk_dictionary rl h dictionary target_key = Raise KeyError ->
  key_nowhere h target_key dictionary.
Proof.
  unfold walk_dictionary, key_nowhere. intros H.
  destruct (negb (is_dict h dictionary)); [discriminate|].
  destruct (walk_dict_helper rl h target_key dictionary "") as [[found|]|e] eqn:E;
    simpl in H; try discriminate.
  - eapply walk_dict_helper_none, E.
  - injection H as ->. now apply walk_dict_helper_no_KeyError in E.
Qed.

Lemma walk_dictionary_KeyError_witness :
  key_nowhere (load_json Runs.flat []).1 "nonexistent" (load_json Runs.flat []).2.
Proof.
  apply (walk_dictionary_KeyError 1000). vm_compute; reflexivity.
Defined.

(** ** What the annotation cache holds: the whole of it *)

(** X13: the dict that [cache_json_properties] returns holds exactly the
    fields of the list [nullable, title, description, x-virtual, format]
    that the search finds with a value that is true, each under the name of
    the list (whatever the case of the key found) and with the value
    found. *)
Theorem cache_holds_captured rl h arb_object cached k v :
  cache_json_properties rl h arb_object = Ok cached ->
  (Dict.get k (default [] cached) = Some v <->
   In k fields_to_keep /\
   exists path, walk_dictionary rl h arb_object k = Ok (path, v) /\
                truthy h v = true).
Proof.
  intros H. rewrite (cache_json_properties_get _ _ _ _ k H).
  destruct (in_dec string_dec k fields_to_keep) as [Hin|Hnin].
  - unfold captured.
    destruct (walk_dictionary rl h arb_object k) as [[p x]|e].
    + destruct (truthy h x) eqn:Et; split.
      * intros [= ->]. split; [exact Hin|]. now exists p.
      * intros (_ & p' & [= _ ->] & _). reflexivity.
      * discriminate.
      * intros (_ & p' & [= _ ->] & Ht). congruence.
    + split; [discriminate | intros (_ & p' & Hd & _); discriminate].
  - split; [discriminate | tauto].
Qed.

Lemma cache_holds_captured_witness :
  Dict.get "nullable"
    (default []
       match cache_json_properties 1000 (Samples.site_copy Samples.annotated).1
               (Samples.site_copy Samples.annotated).2
       with Ok c => c | Raise _ => None end) = Some (VBool true) <->
  In "nullable" fields_to_keep /\
  exists path,
    walk_dictionary 1000 (Samples.site_copy Samples.annotated).1
      (Samples.site_copy Samples.annotated).2 "nullable"
    = Ok (path, VBool true) /\
    truthy (Samples.site_copy Samples.annotated).1 (VBool true) = true.
Proof.
  apply (cache_holds_captured 1000 (Samples.site_copy Samples.annotated).1
           (Samples.site_copy Samples.annotated).2).
  vm_compute; reflexivity.
Defined.

(** ** What the collection of references returns *)

Lemma for_each_grows {A B} (body : list B -> A -> result (list B)) :
  (forall s y s', body s y = Ok s' -> forall w, In w s -> In w s') ->
  forall xs s s', for_each body s xs = Ok s' -> forall w, In w s -> In w s'.
Proof.
  intros Hmono. induction xs as [|x xs IH]; simpl; intros s s' H w Hw.
  - now injection H as <-.
  - apply bind_Ok in H as (s1 & H1 & H2). eauto.
Qed.

Lemma for_each_reaches {A B} (body : list B -> A -> result (list B)) x v :
  (forall s y s', body s y = Ok s' -> forall w, In w s -> In w s') ->
  (forall s s', body s x = Ok s' -> In v s') ->
  forall xs, In x xs ->
  forall s s', for_each body s xs = Ok s' -> In v s'.
Proof.
  intros Hmono Hx. induction xs as [|y xs IH]; intros Hin s s' H; [destruct Hin|].
  simpl in H. apply bind_Ok in H as (s1 & H1 & H2).
  destruct Hin as [->|Hin]; [|eauto].
  eapply for_each_grows; [exact Hmono | exact H2 | eauto].
Qed.

Lemma walk_references_sound h : forall rl schema refs,
  walk_references rl h schema = Ok refs ->
  forall v, In v refs -> ref_at h schema v.
Proof.
  induction rl as [|rl IH]; intros schema refs H; [discriminate|].
  simpl in H. destruct (deref h schema) as [[kvs|xs]|] eqn:Ed; try discriminate.
  refine (for_each_invariant_in
            (fun out => forall v, In v out -> ref_at h schema v)
            _ kvs _ [] refs _ H); [|intros v []].
  intros out [key value] out' Hin Hout Hb v Hv.
  destruct (String.eqb_spec key "$ref") as [->|Hk].
  - injection Hb as <-. apply in_app_or in Hv as [Hv|[<-|[]]]; [auto|].
    eapply ref_here; eauto.
  - destruct (deref h value) as [[kvs'|xs]|] eqn:Ev.
    + apply bind_Ok in Hb as (inner & Hi & [= <-]).
      apply in_app_or in Hv as [Hv|Hv]; [auto|].
      eapply ref_in_dict; eauto. unfold is_dict. now rewrite Ev.
    + destruct (forallb (is_dict h) xs) eqn:Ef.
      * revert v Hv.
        refine (for_each_invariant_in
                  (fun out => forall v, In v out -> ref_at h schema v)
                  _ xs _ out out' Hout Hb).
        intros o each o' Hin' Ho Hb' v Hv.
        apply bind_Ok in Hb' as (inner & Hi & [= <-]).
        apply in_app_or in Hv as [Hv|Hv]; [auto|].
        eapply ref_in_list; eauto.
      * injection Hb as <-. auto.
    + injection Hb as <-. auto.
Qed.

Lemma walk_references_complete h : forall rl schema refs,
  walk_references rl h schema = Ok refs ->
  forall v, ref_at h schema v -> In v refs.
Proof.
  induction rl as [|rl IH]; intros schema refs H v Hr; [discriminate|].
  simpl in H. destruct (deref h schema) as [[kvs|xs]|] eqn:Ed; try discriminate.
  match type of H with for_each ?f _ _ = _ => set (body := f) in * end.
  assert (Hinner : forall s y s',
             (inner ← walk_references rl h y; Ok (s ++ inner)) = Ok s' ->
             forall w, In w s -> In w s').
  { intros s y s' Hb w Hw. apply bind_Ok in Hb as (inner & _ & [= <-]).
    apply in_or_app; now left. }
  assert (Hmono : forall s y s', body s y = Ok s' ->
                                 forall w, In w s -> In w s').
  { intros s [key value] s' Hb w Hw. unfold body in Hb.
    destruct (String.eqb key "$ref").
    { injection Hb as <-. apply in_or_app; now left. }
    destruct (deref h value) as [[kvs'|xs]|].
    - eapply Hinner; eauto.
    - destruct (forallb (is_dict h) xs).
      + eapply for_each_grows; [exact Hinner | exact Hb | exact Hw].
      + now injection Hb as <-.
    - now injection Hb as <-. }
  inversion Hr as [d kvs0 v0 Hd Hin
                  |d kvs0 key value v0 Hd Hin Hk Hv Hr'
                  |d kvs0 key value xs each v0 Hd Hin Hk Hv Hf He Hr'];
    subst; rewrite Ed in Hd; injection Hd as <-.
  - eapply (for_each_reaches body ("$ref", v) v Hmono); [|exact Hin|exact H].
    intros s s' Hb. unfold body in Hb. simpl in Hb. injection Hb as <-.
    apply in_or_app; right; now left.
  - eapply (for_each_reaches body (key, value) v Hmono); [|exact Hin|exact H].
    intros s s' Hb. unfold body in Hb.
    destruct (String.eqb_spec key "$ref"); [contradiction|].
    unfold is_dict in Hv.
    destruct (deref h value) as [[kvs'|xs]|]; try discriminate.
    apply bind_Ok in Hb as (inner & Hi & [= <-]).
    apply in_or_app; right. eapply IH; eauto.
  - eapply (for_each_reaches body (key, value) v Hmono); [|exact Hin|exact H].
    intros s s' Hb. unfold body in Hb.
    destruct (String.eqb_spec key "$ref"); [contradiction|].
    rewrite Hv, Hf in Hb.
    eapply (for_each_reaches _ each v Hinner); [|exact He|exact Hb].
    intros o o' Hb'. apply bind_Ok in Hb' as (inner & Hi & [= <-]).
    apply in_or_app; right. eapply IH; eauto.
Qed.

(** X14: the list [walk_references] returns holds exactly the values of the
    ["$ref"] keys of the schema and of the dicts below it, where below goes
    through keys other than ["$ref"] into a dict, or into the elements of a
    list all of whose elements are dicts; nothing under a ["$ref"] key, and
    nothing in a list with an element that is not a dict, is collected. *)
Theorem walk_references_exact rl h schema refs v :
  walk_references rl h schema = Ok refs ->
  (In v refs <-> ref_at h schema v).
Proof.
  intros H. split.
  - now apply (walk_references_sound h rl schema refs).
  - now apply (walk_references_complete h rl schema refs).
Qed.

Lemma walk_references_exact_witness :
  In (VStr "#/x") [VStr "#/x"] <->
  ref_at (load_json Samples.annotated []).1 (load_json Samples.annotated []).2
    (VStr "#/x").
Proof.
  apply (walk_references_exact 1000). vm_compute; reflexivity.
Defined.

(** ** Pointers read segment by segment *)

Lemma split_no_sep sep : forall w,
  PyStr.mem_char sep w = false -> PyStr.split sep w = [w].
Proof.
  induction w as [|c w IH]; intros H; [reflexivity|].
  simpl in H. apply orb_false_iff in H as [Hc Hw].
  simpl. rewrite Hc, (IH Hw). reflexivity.
Qed.

Lemma split_app_sep sep rest : forall w,
  PyStr.mem_char sep w = false ->
  PyStr.split sep (w +:+ String sep rest) = w :: PyStr.split sep rest.
Proof.
  induction w as [|c w IH]; intros H.
  - rewrite PyStrFacts.app_nil. simpl. now rewrite Ascii.eqb_refl.
  - simpl in H. apply orb_false_iff in H as [Hc Hw].
    rewrite PyStrFacts.app_cons. simpl. rewrite Hc, (IH Hw). reflexivity.
Qed.

Lemma split_join sep : forall l,
  l <> [] -> Forall (fun w => PyStr.mem_char sep w = false) l ->
  PyStr.split sep (PyStr.join sep l) = l.
Proof.
  induction l as [|w l IH]; intros Hne Hall; [contradiction|].
  inversion Hall as [|? ? Hw Hl]; subst.
  destruct l as [|w' l]; [now apply split_no_sep|].
  rewrite PyStrFacts.join_cons by discriminate.
  rewrite split_app_sep by exact Hw. f_equal. now apply IH.
Qed.

Lemma traverse_no_index h keys : forall data_dict,
  traverse h None keys data_dict = for_each (subscript_key h) data_dict keys.
Proof.
  unfold traverse. induction keys as [|k keys IH]; intros d; [reflexivity|].
  simpl. rewrite andb_false_r.
  destruct (subscript_key h d k); simpl; [apply IH | reflexivity].
Qed.

Lemma last_not_nil {A} (l : list A) w : last l = Some w -> l <> [].
Proof. now destruct l. Qed.

(** The steps of [fetch_value_from_ref] up to the split of the pointer, for
    a pointer written as its segments joined by slashes. *)
Ltac read_pointer segs Hall Hlast Hc Hspecial :=
  let Hrest := fresh "Hrest" in
  let Hsplit := fresh "Hsplit" in
  pose proof (PyStrFacts.last_char_join "/" segs _ _ Hlast Hc) as Hrest;
  pose proof (split_join "/" segs (last_not_nil _ _ Hlast) Hall) as Hsplit;
  change ("#/" +:+ PyStr.join "/" segs)
    with (String "#" (String "/" (PyStr.join "/" segs))) in *;
  unfold fetch_value_from_ref;
  change (Ascii.eqb "#" "#") with true; cbn [negb];
  change (last_from "#" (String "/" (PyStr.join "/" segs)))
    with (last_from "/" (PyStr.join "/" segs));
  rewrite (PyStrFacts.last_from_last_char _ _ _ Hrest), Hspecial;
  change (PyStr.drop 2 (String "#" (String "/" (PyStr.join "/" segs))))
    with (PyStr.join "/" segs);
  rewrite Hsplit; unfold _is_targeting_list_item; rewrite Hlast.

(** X15: a pointer ["#/k1/.../kn"] whose last segment does not read as an
    integer (and ends on a letter, digit or space) is resolved by
    subscripting the document with each segment in turn,
    [data_dict[k1]...[kn]], whatever the values on the way are; the store is
    left as it is. *)
Theorem fetch_plain_pointer h keys k c data_dict :
  Forall (fun w => PyStr.mem_char "/" w = false) keys ->
  last keys = Some k ->
  PyStr.to_int k = None ->
  PyStr.last_char k = Some c -> PyStr.is_special c = false ->
  fetch_value_from_ref h (VStr ("#/" +:+ PyStr.join "/" keys)) data_dict
  = (v ← for_each (subscript_key h) data_dict keys; Ok (h, v)).
Proof.
  intros Hall Hlast Hint Hc Hspecial.
  read_pointer keys Hall Hlast Hc Hspecial.
  rewrite Hint, traverse_no_index. reflexivity.
Qed.

Lemma fetch_plain_pointer_witness :
  fetch_value_from_ref (load_json Runs.nested_dict []).1
    (VStr ("#/" +:+ PyStr.join "/" ["key1"; "nested_key2"; "deep_key2"]))
    (load_json Runs.nested_dict []).2
  = (v ← for_each (subscript_key (load_json Runs.nested_dict []).1)
           (load_json Runs.nested_dict []).2
           ["key1"; "nested_key2"; "deep_key2"];
     Ok ((load_json Runs.nested_dict []).1, v)).
Proof.
  apply (fetch_plain_pointer _ ["key1"; "nested_key2"; "deep_key2"]
           "deep_key2" "2").
  - repeat constructor.
  - reflexivity.
  - reflexivity.
  - reflexivity.
  - reflexivity.
Defined.

Lemma last_snoc_removelast {A} (l : list A) x :
  last (l ++ [x]) = Some x /\ removelast (l ++ [x]) = l.
Proof. split; [apply last_snoc | apply removelast_last]. Qed.

(** X16: a pointer whose last segment reads as an integer [i], and which
    does not contain ["/enum/"], is resolved by the traversal of the
    segments before the last, followed by the subscript [[i]] with the
    integer: the last segment is never used as a key. *)
Theorem fetch_indexed_pointer h keys idx i data_dict :
  Forall (fun w => PyStr.mem_char "/" w = false) (keys ++ [idx]) ->
  PyStr.to_int idx = Some i ->
  PyStr.contains "/enum/"
    (PyStr.lower ("#/" +:+ PyStr.join "/" (keys ++ [idx]))) = false ->
  fetch_value_from_ref h (VStr ("#/" +:+ PyStr.join "/" (keys ++ [idx])))
    data_dict
  = (current_output ← traverse h (Some i) keys data_dict;
     v ← subscript_index h current_output i; Ok (h, v)).
Proof.
  intros Hall Hint Henum.
  destruct (PyStrFacts.to_int_last _ _ Hint) as (c & Hc & Hspecial).
  destruct (last_snoc_removelast keys idx) as [Hlast Hremove].
  read_pointer (keys ++ [idx]) Hall Hlast Hc Hspecial.
  rewrite Hint, Hremove, Henum. reflexivity.
Qed.

Lemma fetch_indexed_pointer_witness :
  fetch_value_from_ref (load_json More.list_on_path []).1
    (VStr ("#/" +:+ PyStr.join "/" (["a"] ++ ["1"])))
    (load_json More.list_on_path []).2
  = (current_output ← traverse (load_json More.list_on_path []).1 (Some 1%Z)
                        ["a"] (load_json More.list_on_path []).2;
     v ← subscript_index (load_json More.list_on_path []).1 current_output 1;
     Ok ((load_json More.list_on_path []).1, v)).
Proof.
  apply (fetch_indexed_pointer _ ["a"] "1" 1).
  - repeat constructor.
  - reflexivity.
  - reflexivity.
Defined.

(** X17: a key of a dict that reads as an integer (["2024"], [" 7 "],
    ["-1"]) cannot be addressed as the last segment of a pointer: when the
    segments before it lead to a dict, the pointer raises [KeyError]
    ([TypeError] if it contains ["/enum/"]), whether or not the dict has the
    key. *)
Theorem numeric_key_not_addressable h keys idx i data_dict current_output kvs :
  Forall (fun w => PyStr.mem_char "/" w = false) (keys ++ [idx]) ->
  PyStr.to_int idx = Some i ->
  traverse h (Some i) keys data_dict = Ok current_output ->
  deref h current_output = Some (ODict kvs) ->
  fetch_value_from_ref h (VStr ("#/" +:+ PyStr.join "/" (keys ++ [idx])))
    data_dict
  = Raise (if PyStr.contains "/enum/"
                (PyStr.lower ("#/" +:+ PyStr.join "/" (keys ++ [idx])))
           then TypeError else KeyError).
Proof.
  intros Hall Hint Htraverse Hdict.
  destruct (PyStrFacts.to_int_last _ _ Hint) as (c & Hc & Hspecial).
  destruct (last_snoc_removelast keys idx) as [Hlast Hremove].
  read_pointer (keys ++ [idx]) Hall Hlast Hc Hspecial.
  rewrite Hint, Hremove, Htraverse. cbn [mbind result_bind].
  destruct (PyStr.contains "/enum/" _).
  - now rewrite Hdict.
  - destruct current_output as [| | | | |l]; try discriminate.
    simpl in Hdict. unfold subscript_index. now rewrite Hdict.
Qed.

Lemma numeric_key_not_addressable_witness :
  fetch_value_from_ref (load_json Pointers.numeric_key []).1
    (VStr ("#/" +:+ PyStr.join "/" (["years"] ++ ["2024"])))
    (load_json Pointers.numeric_key []).2
  = Raise (if PyStr.contains "/enum/"
                (PyStr.lower ("#/" +:+ PyStr.join "/" (["years"] ++ ["2024"])))
           then TypeError else KeyError).
Proof.
  apply (numeric_key_not_addressable _ ["years"] "2024" 2024 _ (VRef 0)
           [("2024", VStr "leap")]).
  - repeat constructor.
  - reflexivity.
  - reflexivity.
  - reflexivity.
Defined.

(** ** Where a relative reference leads *)




(** ** Loading a document and saving it again *)

Lemma reify_mono : forall n h v j,
  reify n h v = Some j ->
  forall m ext, n <= m -> reify m (h ++ ext) v = Some j.
Proof.
  induction n as [|n IH]; intros h v j H m ext Hle.
  - destruct v; simpl in H; try discriminate; destruct m; exact H.
  - destruct v as [| | | | |l]; simpl in H;
      try (destruct m; exact H).
    destruct m as [|m]; [lia|]. simpl.
    destruct (h !! l) as [[kvs|xs]|] eqn:El; [| |discriminate];
      rewrite (lookup_app_l_Some _ _ _ _ El).
    + destruct (mapM _ kvs) as [kvs'|] eqn:Em; [|discriminate].
      simpl in H. injection H as <-.
      enough (Hm : mapM (fun kv => j ← reify m (h ++ ext) (snd kv);
                                   Some (fst kv, j)) kvs = Some kvs')
        by now rewrite Hm.
      apply mapM_Some. apply mapM_Some in Em.
      eapply Forall2_impl; [exact Em|].
      intros kv y Hy. simpl in *.
      destruct (reify n h (snd kv)) as [x|] eqn:Er; [|discriminate].
      rewrite (IH _ _ _ Er m ext) by lia. exact Hy.
    + destruct (mapM _ xs) as [xs'|] eqn:Em; [|discriminate].
      simpl in H. injection H as <-.
      enough (Hm : mapM (reify m (h ++ ext)) xs = Some xs') by now rewrite Hm.
      apply mapM_Some. apply mapM_Some in Em.
      eapply Forall2_impl; [exact Em|].
      intros v y Hy. simpl in *. apply IH; [exact Hy | lia].
Qed.

Lemma distinct_NoDup l : distinct l = true -> List.NoDup l.
Proof.
  induction l as [|k l IH]; simpl; intros H; [constructor|].
  apply andb_true_iff in H as [Hk Hl]. constructor; [|now apply IH].
  intros Hin. apply negb_true_iff in Hk.
  assert (Hex : existsb (String.eqb k) l = true).
  { apply existsb_exists. exists k. split; [exact Hin | apply String.eqb_refl]. }
  congruence.
Qed.

Lemma set_fresh {A} k (v : A) d :
  ~ In k (Dict.keys d) -> Dict.set k v d = d ++ [(k, v)].
Proof.
  induction d as [|[k' v'] d IH]; simpl; intros Hk; [reflexivity|].
  destruct (String.eqb_spec k' k) as [->|Hne]; [tauto|].
  rewrite IH by tauto. reflexivity.
Qed.

(** What [json.load] builds for a document without repeated keys reads back
    as the document, and is made of as many objects as the document has
    lists and dicts. *)
Lemma load_json_reify j :
  keys_distinct j = true ->
  forall h, exists ext v,
    load_json j h = (h ++ ext, v) /\ length ext = containers j /\
    reify (containers j) (h ++ ext) v = Some j.
Proof.
  induction j as [| |n|q|s|xs IH|kvs IH] using json_nested_ind; intros Hd h;
    try (exists []; eexists; simpl; rewrite app_nil_r;
         repeat split; reflexivity).
  - simpl in Hd. simpl load_json.
    match goal with |- context [?go xs h []] => set (g := go) end.
    assert (Hgo : forall xs,
      Forall (fun j => keys_distinct j = true ->
                forall h, exists ext v,
                  load_json j h = (h ++ ext, v) /\ length ext = containers j /\
                  reify (containers j) (h ++ ext) v = Some j) xs ->
      forallb keys_distinct xs = true ->
      forall h acc, exists ext vs,
        g xs h acc = (h ++ ext, acc ++ vs) /\
        length ext = list_sum (map containers xs) /\
        Forall2 (fun v x => reify (containers x) (h ++ ext) v = Some x) vs xs).
    { clear. induction xs as [|x xs IHxs]; intros HF Hd h acc.
      - exists [], []. simpl. rewrite !app_nil_r. repeat split. constructor.
      - inversion HF as [|? ? Hx HF']; subst.
        simpl in Hd. apply andb_true_iff in Hd as [Hdx Hdxs].
        destruct (Hx Hdx h) as (e1 & v & Hl & Hlen & Hr).
        destruct (IHxs HF' Hdxs (h ++ e1) (acc ++ [v]))
          as (e2 & vs & Hg & Hlen2 & Hall).
        exists (e1 ++ e2), (v :: vs). simpl. rewrite Hl, Hg.
        rewrite <- !app_assoc. simpl. repeat split.
        + rewrite length_app. lia.
        + constructor.
          * rewrite app_assoc. apply reify_mono with (n := containers x);
              [exact Hr | lia].
          * rewrite app_assoc. exact Hall. }
    destruct (Hgo xs IH Hd h []) as (ext & vs & Hg & Hlen & Hall).
    rewrite Hg. simpl. unfold alloc.
    exists (ext ++ [OList vs]), (VRef (length (h ++ ext))).
    rewrite <- app_assoc. repeat split.
    + rewrite length_app. simpl. lia.
    + simpl. rewrite app_assoc, list_lookup_middle by reflexivity.
      enough (Hm : mapM (reify (list_sum (map containers xs))
                           ((h ++ ext) ++ [OList vs])) vs = Some xs)
        by now rewrite Hm.
      apply mapM_Some. remember [OList vs] as e eqn:He. clear -Hall.
      set (n := list_sum (map containers xs)).
      assert (Hn : forall x, In x xs -> containers x <= n).
      { intros x Hx. subst n. clear -Hx.
        induction xs as [|y xs IHxs]; [destruct Hx|]. simpl.
        destruct Hx as [->|Hx]; [lia | specialize (IHxs Hx); lia]. }
      clearbody n. induction Hall as [|v x vs xs Hv Hall IHall]; constructor.
      * apply reify_mono with (n := containers x); [exact Hv|].
        apply Hn. now left.
      * apply IHall. intros y Hy. apply Hn. now right.
  - simpl in Hd. apply andb_true_iff in Hd as [Hnd Hd].
    apply distinct_NoDup in Hnd. simpl load_json.
    match goal with |- context [?go kvs h []] => set (g := go) end.
    assert (Hgo : forall kvs,
      Forall (fun kv => keys_distinct (snd kv) = true ->
                forall h, exists ext v,
                  load_json (snd kv) h = (h ++ ext, v) /\
                  length ext = containers (snd kv) /\
                  reify (containers (snd kv)) (h ++ ext) v = Some (snd kv)) kvs ->
      forallb (fun kv => keys_distinct (snd kv)) kvs = true ->
      forall h acc,
        List.NoDup (Dict.keys acc ++ map fst kvs) ->
        exists ext es,
          g kvs h acc = (h ++ ext, acc ++ es) /\
          length ext = list_sum (map (fun kv => containers (snd kv)) kvs) /\
          Forall2 (fun e kv =>
                     fst e = fst kv /\
                     reify (containers (snd kv)) (h ++ ext) (snd e)
                     = Some (snd kv)) es kvs).
    { clear. induction kvs as [|[k x] kvs IHk]; intros HF Hd h acc Hnd.
      - exists [], []. simpl. rewrite !app_nil_r. repeat split. constructor.
      - inversion HF as [|? ? Hx HF']; subst.
        simpl in Hd. apply andb_true_iff in Hd as [Hdx Hdxs].
        simpl in Hx. destruct (Hx Hdx h) as (e1 & v & Hl & Hlen & Hr).
        assert (Hfresh : ~ In k (Dict.keys acc)).
        { simpl in Hnd. apply List.NoDup_remove_2 in Hnd.
          intros Hin. apply Hnd. apply in_or_app. now left. }
        assert (Hnd' : List.NoDup (Dict.keys (acc ++ [(k, v)]) ++ map fst kvs)).
        { unfold Dict.keys. rewrite map_app. simpl.
          rewrite <- app_assoc. exact Hnd. }
        destruct (IHk HF' Hdxs (h ++ e1) (acc ++ [(k, v)]) Hnd')
          as (e2 & es & Hg & Hlen2 & Hall).
        exists (e1 ++ e2), ((k, v) :: es). simpl. rewrite Hl.
        rewrite (set_fresh _ _ _ Hfresh), Hg.
        rewrite <- !app_assoc. simpl. repeat split.
        + rewrite length_app. lia.
        + constructor.
          * split; [reflexivity|]. simpl. rewrite app_assoc.
            apply reify_mono with (n := containers x); [exact Hr | lia].
          * rewrite app_assoc. exact Hall. }
    destruct (Hgo kvs IH Hd h [] Hnd) as (ext & es & Hg & Hlen & Hall).
    rewrite Hg. simpl. unfold alloc.
    exists (ext ++ [ODict es]), (VRef (length (h ++ ext))).
    rewrite <- app_assoc. repeat split.
    + rewrite length_app. simpl. lia.
    + simpl. rewrite app_assoc, list_lookup_middle by reflexivity.
      set (n := list_sum (map (fun kv => containers (snd kv)) kvs)).
      enough (Hm : mapM (fun kv => j ← reify n ((h ++ ext) ++ [ODict es]) (snd kv);
                                   Some (fst kv, j)) es = Some kvs)
        by now rewrite Hm.
      apply mapM_Some. remember [ODict es] as tl eqn:He. clear -Hall.
      assert (Hn : forall kv, In kv kvs -> containers (snd kv) <= n).
      { intros kv Hkv. subst n. clear -Hkv.
        induction kvs as [|y kvs IHk]; [destruct Hkv|]. simpl.
        destruct Hkv as [->|Hkv]; [lia | specialize (IHk Hkv); lia]. }
      clearbody n. induction Hall as [|e kv es kvs [Hk Hv] Hall IHall];
        constructor.
      * rewrite (reify_mono _ _ _ _ Hv n tl) by (apply Hn; now left).
        simpl. rewrite Hk. now destruct kv.
      * apply IHall. intros y Hy. apply Hn. now right.
Qed.

Lemma dump_load_json j h v :
  keys_distinct j = true -> load_json j [] = (h, v) -> dump h v = Ok j.
Proof.
  intros Hd Hl. destruct (load_json_reify j Hd []) as (ext & v' & Hl' & Hlen & Hr).
  rewrite Hl in Hl'. injection Hl' as -> ->. simpl in *.
  unfold dump.
  pose proof (reify_mono _ _ _ _ Hr (S (length ext)) []) as Hm.
  rewrite app_nil_r in Hm. rewrite Hm by lia. reflexivity.
Qed.

Lemma write_read_same fs p j :
  read_file fs p = Ok j -> write_file fs p j = fs.
Proof.
  induction fs as [|[q j'] fs IH]; simpl; [discriminate|].
  destruct (decide (q = p)) as [->|Hne].
  - now intros [= ->].
  - intros H. now rewrite IH.
Qed.

(** X19: the reset mode leaves every file as it is, as far as the content
    that [json.load] reads goes, when no dict of a listed file has a key
    twice: each document is written back with the entries it was read with,
    in the order it was read with. *)
Theorem reset_keeps_documents cwd fs json_file_paths :
  (forall f, In f json_file_paths ->
     exists j, read_file fs (Path.join_resolve cwd f) = Ok j /\
               keys_distinct j = true) ->
  reset_jsons cwd fs json_file_paths = Ok fs.
Proof.
  unfold reset_jsons.
  induction json_file_paths as [|f paths IH]; intros Hall; [reflexivity|].
  destruct (Hall f) as (j & Hread & Hd); [now left|].
  cbn [for_each]. rewrite Hread. cbn [mbind result_bind].
  destruct (load_json j []) as [h v] eqn:El.
  rewrite (dump_load_json _ _ _ Hd El). cbn [mbind result_bind].
  rewrite (write_read_same _ _ _ Hread).
  apply IH. intros f' Hf'. apply Hall. now right.
Qed.

Lemma referencing_files_distinct f :
  In f ["/d/a.json"; "/d/b.json"] ->
  exists j, read_file Runs.referencing_files (Path.join_resolve [] f) = Ok j /\
            keys_distinct j = true.
Proof.
  intros [<-|[<-|[]]]; eexists; split; vm_compute; reflexivity.
Qed.

Lemma reset_keeps_documents_witness :
  reset_jsons [] Runs.referencing_files ["/d/a.json"; "/d/b.json"]
  = Ok Runs.referencing_files.
Proof.
  apply (reset_keeps_documents [] Runs.referencing_files
           ["/d/a.json"; "/d/b.json"]).
  exact referencing_files_distinct.
Defined.

(** A key met twice is written back once, at its first place and with its
    last value. *)
Example reset_repeated_key :
  reset_jsons [] [(["d"; "a.json"],
                   JDict [("a", JInt 1); ("b", JInt 2); ("a", JInt 3)])]
    ["/d/a.json"]
  = Ok [(["d"; "a.json"], JDict [("a", JInt 3); ("b", JInt 2)])].
Proof. vm_compute; reflexivity. Qed.

(** ** The location a specification is loaded with *)

Lemma walk_dictionary_outcome rl h dictionary target_key :
  match walk_dictionary rl h dictionary target_key with
  | Ok (_, v) => exists keys, key_chain h target_key dictionary keys v
  | Raise KeyError => key_nowhere h target_key dictionary
  | Raise _ => True
  end.
Proof.
  unfold walk_dictionary, key_nowhere.
  destruct (negb (is_dict h dictionary)); [exact I|].
  destruct (walk_dict_helper rl h target_key dictionary "")
    as [[[p v]|]|e] eqn:E; simpl.
  - destruct (walk_dict_helper_sound _ _ _ _ _ _ _ E) as (keys & Hc & _).
    now exists keys.
  - eapply walk_dict_helper_none, E.
  - destruct e; try exact I. now apply walk_dict_helper_no_KeyError in E.
Qed.

Lemma locate_first rl h open_api_spec : forall answers schema_location v spec,
  locate rl h open_api_spec schema_location answers = Returned v spec ->
  spec = open_api_spec /\
  exists tried key rest,
    schema_location :: answers = tried ++ key :: rest /\
    Forall (fun k => k <> "" /\ key_nowhere h k open_api_spec) (tl tried) /\
    Forall (fun k => key_nowhere h k open_api_spec) tried /\
    exists keys, key_chain h key open_api_spec keys v.
Proof.
  induction answers as [|a answers IH]; intros loc v spec H;
    pose proof (walk_dictionary_outcome rl h open_api_spec loc) as Hout;
    simpl in H;
    destruct (walk_dictionary rl h open_api_spec loc) as [[p x]|e].
  - injection H as <- <-. split; [reflexivity|].
    exists [], loc, []. repeat split; [constructor | constructor | exact Hout].
  - destruct e; discriminate.
  - injection H as <- <-. split; [reflexivity|].
    exists [], loc, (a :: answers).
    repeat split; [constructor | constructor | exact Hout].
  - destruct e; try discriminate.
    destruct (String.eqb_spec a "") as [->|Hne]; [discriminate|].
    destruct (IH _ _ _ H) as (-> & tried & key & rest & Heq & Htl & Hall & Hc).
    split; [reflexivity|].
    exists (loc :: tried), key, rest. rewrite Heq. repeat split.
    + simpl. destruct tried as [|t tried]; [constructor|].
      injection Heq as <- _. simpl in Htl.
      constructor; [|exact Htl]. inversion Hall; subst. now split.
    + constructor; assumption.
    + exact Hc.
Qed.

(** X20: the schema that [load_openapi_spec] returns for a location sits in
    the document it returns, under the first key (up to case, at any depth
    of nested dicts) that exists there among the location given and the
    alternatives entered at the prompts, in that order; every key tried
    before it exists nowhere in the document, and no alternative entered
    before it is empty. *)
Theorem load_openapi_spec_first_found rl fs spec_path schema_location answers
    h v spec :
  load_openapi_spec rl fs spec_path (Some schema_location) answers
  = (h, Returned v spec) ->
  schema_location <> "" ->
  exists tried key rest keys,
    schema_location :: answers = tried ++ key :: rest /\
    Forall (fun k => key_nowhere h k spec) tried /\
    Forall (fun k => k <> "") (tl tried) /\
    key_chain h key spec keys v.
Proof.
  unfold load_openapi_spec. intros H Hne.
  destruct (read_file fs spec_path) as [j|e]; [|discriminate].
  destruct (load_json j []) as [h0 doc].
  destruct schema_location as [|c s]; [contradiction|].
  injection H as <- H.
  destruct (locate_first _ _ _ _ _ _ _ H)
    as (-> & tried & key & rest & Heq & Htl & Hall & keys & Hc).
  exists tried, key, rest, keys. repeat split; try assumption.
  eapply Forall_impl; [exact Htl|]. now intros k [Hk _].
Qed.

Lemma load_openapi_spec_first_found_witness :
  exists tried key rest keys,
    "schema" :: ["KEY2"; "other"] = tried ++ key :: rest /\
    Forall (fun k => key_nowhere (load_json Runs.nested []).1 k
                       (load_json Runs.nested []).2) tried /\
    Forall (fun k => k <> "") (tl tried) /\
    key_chain (load_json Runs.nested []).1 key (load_json Runs.nested []).2
      keys (VRef 1).
Proof.
  apply (load_openapi_spec_first_found 1000 [(["d"; "a.json"], Runs.nested)]
           ["d"; "a.json"] "schema" ["KEY2"; "other"]).
  - vm_compute; reflexivity.
  - discriminate.
Defined.

(** The prompts of [load_openapi_spec] on the document of
    [test_walk_dictionary]: an alternative that exists, an empty line, no
    line, and a location that is the empty string. *)
Example load_openapi_spec_prompts :
  let load loc answers :=
    (load_openapi_spec 1000 [(["d"; "a.json"], Runs.nested)] ["d"; "a.json"]
       loc answers).2 in
  load (Some "schema") ["subkey1"] = Returned (VStr "subvalue1") (VRef 2) /\
  load (Some "schema") [""; "subkey1"] = ReturnedNone /\
  load (Some "schema") ["nothing"] = EndOfInput /\
  load (Some "") ["subkey1"] = Returned VNone (VRef 2) /\
  load None [] = Returned VNone (VRef 2) /\
  (load_openapi_spec 1000 [] ["d"; "a.json"] None []).2 = Raised FileNotFoundError.
Proof. repeat split; vm_compute; reflexivity. Qed.
